(** * tlcl HMAC functions: TSS_CheckHMAC and TSS_AuthHMAC

    A shallow embedding of [lib/tlcl/tlcl_hmac.c].  The two C functions read
    caller-supplied buffers through raw pointers, so the embedding keeps the
    pointers (a pointer is either NULL or designates an object of known
    extent), records every access the code performs, and makes the undefined
    behaviours of C (NULL dereference, access outside an object, a [va_arg]
    that does not match what the caller pushed) an explicit [Fault] outcome
    distinct from every value the functions can return. *)

From Stdlib Require Import ZArith List Bool Lia.
From Stdlib Require Import Strings.Byte.
Import ListNotations.
Open Scope Z_scope.

(** ** Bytes, pointers and objects *)

Definition uint8 := byte.
Definition bytes := list uint8.

(** A C pointer argument: [None] is NULL, [Some b] points at the first byte
    of an object whose contents (and extent) are [b]. *)
Definition ptr := option bytes.

Definition is_null (p : ptr) : bool :=
  match p with None => true | Some _ => false end.

Definition Zlength' (b : bytes) : Z := Z.of_nat (length b).

(** [slice b off len]: the [len] bytes of [b] from index [off]. *)
Definition slice (b : bytes) (off len : Z) : bytes :=
  firstn (Z.to_nat len) (skipn (Z.to_nat off) b).

Definition in_bounds (b : bytes) (off len : Z) : bool :=
  (0 <=? off) && (0 <=? len) && (off + len <=? Zlength' b).

Definition wrap32 (x : Z) : Z := x mod 2 ^ 32.

Definition byte_val (b : uint8) : Z := Z.of_N (Byte.to_N b).

Definition byte_of_Z (z : Z) : uint8 :=
  match Byte.of_N (Z.to_N (z mod 256)) with
  | Some b => b
  | None => Byte.x00
  end.

(** ** Accesses, faults and the access-logging monad *)

(** The objects the two functions are handed by their callers. *)
Inductive obj : Type :=
| ObjResponse | ObjNonceOdd | ObjKey | ObjKey2
| ObjDigest | ObjNonce1 | ObjNonce2 | ObjArgData.

Inductive access : Type :=
| Read (o : obj) (off len : Z)
| Write (o : obj) (off len : Z).

Inductive fault : Type :=
| NullDeref (o : obj)
| OutOfBounds (o : obj) (off len : Z)
| BadVaArg.

(** How a run ends: with a value, or at the first access for which the
    source defines no behaviour.  A [Fault] says that the run reaches this
    access without having returned; it says nothing about what a compiled
    function does afterwards. *)
Inductive outcome (A : Type) : Type :=
| Done (a : A)
| Fault (f : fault).
Arguments Done {A} a.
Arguments Fault {A} f.

(** A computation yields the accesses it performed inside the objects, in
    program order, and how it ended. *)
Definition M (A : Type) : Type := (list access * outcome A)%type.

Definition ret {A} (a : A) : M A := ([], Done a).

Definition bind {A B} (m : M A) (k : A -> M B) : M B :=
  match m with
  | (l, Done a) => let '(l', r) := k a in (l ++ l', r)
  | (l, Fault f) => (l, Fault f)
  end.

Definition fail {A} (f : fault) : M A := ([], Fault f).

Declare Scope tlcl_scope.
Delimit Scope tlcl_scope with tlcl.
Notation "x <- m ;; k" := (bind m (fun x => k))
  (at level 61, m at next level, right associativity) : tlcl_scope.
Open Scope tlcl_scope.

Definition trace {A} (m : M A) : list access := fst m.
Definition result {A} (m : M A) : outcome A := snd m.

(** [m] run after the accesses [l] have been made. *)
Definition after {A} (l : list access) (m : M A) : M A :=
  (l ++ trace m, result m).

(** Reading [len] bytes through [p + off]. *)
Definition read (o : obj) (p : ptr) (off len : Z) : M bytes :=
  match p with
  | None => fail (NullDeref o)
  | Some b =>
      if in_bounds b off len then ([Read o off len], Done (slice b off len))
      else fail (OutOfBounds o off len)
  end.

(** Storing the bytes [d] through [p]; yields the new contents of the
    object. *)
Definition write (o : obj) (p : ptr) (d : bytes) : M bytes :=
  match p with
  | None => fail (NullDeref o)
  | Some b =>
      if in_bounds b 0 (Zlength' d)
      then ([Write o 0 (Zlength' d)], Done (d ++ skipn (length d) b))
      else fail (OutOfBounds o 0 (Zlength' d))
  end.

(** ** Variadic arguments *)

Inductive va_value : Type :=
| VaU32 (n : Z)
| VaPtr (p : ptr).

Definition va_list := list va_value.

(** ** What the headers supply *)

(** Modelled from the spec: [tlcl.h], [tlcl_internal.h] and [sha1.h] are not
    part of the sources.  The spec (section 6) says the nonce size, the
    digest size and the three response tags are fixed protocol constants
    supplied by the surrounding library, and that the primitives are a plain
    hash and a keyed HMAC over the same digest algorithm; they are the
    fields of this interface. *)
Class TlclEnv : Type := {
  TPM_HASH_SIZE : Z;
  TPM_NONCE_SIZE : Z;
  TPM_TAG_RSP_COMMAND : Z;
  TPM_TAG_RSP_AUTH1_COMMAND : Z;
  TPM_TAG_RSP_AUTH2_COMMAND : Z;
  sha1 : bytes -> bytes;
  hmac_sha1 : bytes -> bytes -> bytes
}.

(** Modelled from the spec: the numeric values of the three status codes
    are in the absent [tlcl.h]; the spec names them Ok, NullArgument and
    HmacFailure and treats them as distinct results. *)
Inductive tpm_status : Type :=
| TPM_SUCCESS
| TPM_E_NULL_ARG
| TPM_E_HMAC_FAIL.

(** Modelled from the spec: the field widths of section 6 (2-byte tag at
    offset 0, 4-byte size at offset 2, 4-byte return code at offset 6). *)
Definition TPM_U16_SIZE : Z := 2.
Definition TPM_U32_SIZE : Z := 4.

(** Modelled from the spec: [FromTpmUint16], [FromTpmUint32] and
    [ToTpmUint32] of the absent [tlcl_internal.h]; the spec fixes the
    encoding as big-endian integer packing. *)
Definition FromTpmUint16 (b : bytes) : Z :=
  match b with
  | [b0; b1] => Z.lor (Z.shiftl (byte_val b0) 8) (byte_val b1)
  | _ => 0
  end.

Definition FromTpmUint32 (b : bytes) : Z :=
  match b with
  | [b0; b1; b2; b3] =>
      Z.lor (Z.lor (Z.lor (Z.shiftl (byte_val b0) 24)
                          (Z.shiftl (byte_val b1) 16))
                   (Z.shiftl (byte_val b2) 8))
            (byte_val b3)
  | _ => 0
  end.

Definition ToTpmUint32 (x : Z) : bytes :=
  [ byte_of_Z (Z.shiftr x 24); byte_of_Z (Z.shiftr x 16);
    byte_of_Z (Z.shiftr x 8); byte_of_Z x ].

(** Modelled from the spec: the start/update/finish interface of the absent
    [sha1.h] ("stream bytes in, then extract a fixed-size digest").  A
    context holds the bytes streamed so far; the HMAC context also holds the
    key it was started with.  [hmac_starts] and [hmac_finish] are both
    handed the key pointer and [keySize] by the callers, and each reads
    [keySize] bytes through it. *)
Definition SHA1_CTX := bytes.

Definition sha1_starts : SHA1_CTX := [].
Definition sha1_update (ctx : SHA1_CTX) (d : bytes) : SHA1_CTX := ctx ++ d.
Definition sha1_finish `{TlclEnv} (ctx : SHA1_CTX) : bytes := sha1 ctx.

Record HMAC_CTX : Type := { hkey : bytes; hmsg : bytes }.

Definition hmac_starts (o : obj) (key : ptr) (keySize : Z) : M HMAC_CTX :=
  k <- read o key 0 keySize ;;
  ret {| hkey := k; hmsg := [] |}.

Definition hmac_update (ctx : HMAC_CTX) (d : bytes) : HMAC_CTX :=
  {| hkey := hkey ctx; hmsg := hmsg ctx ++ d |}.

Definition hmac_finish `{TlclEnv} (ctx : HMAC_CTX) (o : obj) (key : ptr)
    (keySize : Z) : M bytes :=
  _ <- read o key 0 keySize ;;
  ret (hmac_sha1 (hkey ctx) (hmsg ctx)).

Fixpoint bytes_eqb (a b : bytes) : bool :=
  match a, b with
  | [], [] => true
  | x :: a', y :: b' => Byte.eqb x y && bytes_eqb a' b'
  | _, _ => false
  end.

(** [memcmp (a, p + off, n) != 0] for a local array [a]. *)
Definition memcmp_ne (a : bytes) (o : obj) (p : ptr) (off n : Z) : M bool :=
  d <- read o p off n ;;
  ret (negb (bytes_eqb (firstn (Z.to_nat n) a) d)).

(** ** TSS_CheckHMAC *)

(** The loop of lines 69-74: pairs (size, position) are pulled from the
    variadic list until a zero size; each pair selects
    [response + arg_pos], [arg_size] bytes. *)
Fixpoint check_hash_args (response : ptr) (argp : va_list) (ctx : SHA1_CTX)
    : M SHA1_CTX :=
  match argp with
  | VaU32 a :: argp1 =>
      let arg_size := wrap32 a in
      if arg_size =? 0 then ret ctx
      else
        match argp1 with
        | VaU32 p :: argp2 =>
            let arg_pos := wrap32 p in
            d <- read ObjResponse response arg_pos arg_size ;;
            check_hash_args response argp2 (sha1_update ctx d)
        | _ => fail BadVaArg
        end
  | _ => fail BadVaArg
  end.

(** Lines 88-97, and again lines 103-112 with [key2]: the HMAC over
    paramDigest, even nonce, odd nonce and continue flag, compared with the
    HMAC field of the block that starts [offset] bytes before
    [response + size].  Yields [true] when [memcmp] reports a difference. *)
Definition auth_block `{TlclEnv} (response : ptr) (size offset : Z)
    (nonceOdd : ptr) (ko : obj) (key : ptr) (keySize : Z)
    (paramDigest : bytes) : M bool :=
  ctx <- hmac_starts ko key keySize ;;
  let ctx := hmac_update ctx (firstn (Z.to_nat TPM_HASH_SIZE) paramDigest) in
  even <- read ObjResponse response (size - offset) TPM_NONCE_SIZE ;;
  let ctx := hmac_update ctx even in
  odd <- read ObjNonceOdd nonceOdd 0 TPM_NONCE_SIZE ;;
  let ctx := hmac_update ctx odd in
  cont <- read ObjResponse response (size - offset + TPM_NONCE_SIZE) 1 ;;
  let ctx := hmac_update ctx cont in
  authHmac <- hmac_finish ctx ko key keySize ;;
  memcmp_ne authHmac ObjResponse response
            (size - offset + TPM_NONCE_SIZE + 1) TPM_HASH_SIZE.

Definition TSS_CheckHMAC `{TlclEnv} (response : ptr) (command : Z)
    (nonceOdd key : ptr) (keySize : Z) (key2 : ptr) (keySize2 : Z)
    (argp : va_list) : M tpm_status :=
  tagb <- read ObjResponse response 0 TPM_U16_SIZE ;;
  let tag := FromTpmUint16 tagb in
  sizeb <- read ObjResponse response TPM_U16_SIZE TPM_U32_SIZE ;;
  let size := FromTpmUint32 sizeb in
  let ordinal := ToTpmUint32 command in
  if tag =? TPM_TAG_RSP_COMMAND then ret TPM_SUCCESS
  else if is_null response || is_null nonceOdd || is_null key
  then ret TPM_E_NULL_ARG
  else if negb (tag =? TPM_TAG_RSP_AUTH1_COMMAND)
          && negb (tag =? TPM_TAG_RSP_AUTH2_COMMAND)
  then ret TPM_E_HMAC_FAIL
  else if (tag =? TPM_TAG_RSP_AUTH2_COMMAND) && is_null key2
  then ret TPM_E_NULL_ARG
  else
    let ctx := sha1_starts in
    rc <- read ObjResponse response (TPM_U16_SIZE + TPM_U32_SIZE)
               TPM_U32_SIZE ;;
    let ctx := sha1_update ctx rc in
    let ctx := sha1_update ctx ordinal in
    ctx <- check_hash_args response argp ctx ;;
    let paramDigest := sha1_finish ctx in
    let offset := wrap32 (TPM_NONCE_SIZE + 1 + TPM_HASH_SIZE) in
    let offset :=
      if tag =? TPM_TAG_RSP_AUTH2_COMMAND then wrap32 (offset * 2)
      else offset in
    ne <- auth_block response size offset nonceOdd ObjKey key keySize
                     paramDigest ;;
    if ne then ret TPM_E_HMAC_FAIL
    else if tag =? TPM_TAG_RSP_AUTH2_COMMAND then
      let offset := offset / 2 in
      ne2 <- auth_block response size offset nonceOdd ObjKey2 key2 keySize2
                        paramDigest ;;
      if ne2 then ret TPM_E_HMAC_FAIL else ret TPM_SUCCESS
    else ret TPM_SUCCESS.

(** ** TSS_AuthHMAC *)

(** The loop of lines 137-144: pairs (size, data pointer) until a zero
    size; a NULL data pointer leaves the function at once with
    [TPM_E_NULL_ARG] ([inl]), otherwise the loop ends with the hash context
    ([inr]). *)
Fixpoint auth_hash_args (argp : va_list) (ctx : SHA1_CTX)
    : M (tpm_status + SHA1_CTX) :=
  match argp with
  | VaU32 a :: argp1 =>
      let arg_size := wrap32 a in
      if arg_size =? 0 then ret (inr ctx)
      else
        match argp1 with
        | VaPtr arg_data :: argp2 =>
            if is_null arg_data then ret (inl TPM_E_NULL_ARG)
            else
              d <- read ObjArgData arg_data 0 arg_size ;;
              auth_hash_args argp2 (sha1_update ctx d)
        | _ => fail BadVaArg
        end
  | _ => fail BadVaArg
  end.

(** The function's result is its status together with the contents of the
    object [digest] points at when it returns ([digest] itself when nothing
    was stored). *)
Definition TSS_AuthHMAC `{TlclEnv} (digest : ptr) (key : ptr) (keySize : Z)
    (nonce1 nonce2 : ptr) (authBool : uint8) (argp : va_list)
    : M (tpm_status * ptr) :=
  if is_null nonce1 || is_null nonce2 then ret (TPM_E_NULL_ARG, digest)
  else
    let ctx := sha1_starts in
    r <- auth_hash_args argp ctx ;;
    match r with
    | inl st => ret (st, digest)
    | inr ctx =>
        let paramDigest := sha1_finish ctx in
        hctx <- hmac_starts ObjKey key keySize ;;
        let hctx :=
          hmac_update hctx (firstn (Z.to_nat TPM_HASH_SIZE) paramDigest) in
        n1 <- read ObjNonce1 nonce1 0 TPM_NONCE_SIZE ;;
        let hctx := hmac_update hctx n1 in
        n2 <- read ObjNonce2 nonce2 0 TPM_NONCE_SIZE ;;
        let hctx := hmac_update hctx n2 in
        let hctx := hmac_update hctx [authBool] in
        out <- hmac_finish hctx ObjKey key keySize ;;
        digest' <- write ObjDigest digest out ;;
        ret (TPM_SUCCESS, Some digest')
    end.

(** ** Assumptions on the header constants and primitives *)

(** The facts about the absent headers that the proofs rely on: the sizes
    are non-negative and the doubled trailer length fits 32 bits, the three
    tags are pairwise different, and both primitives produce a digest of
    [TPM_HASH_SIZE] bytes. *)
Record TlclEnvOk (E : TlclEnv) : Prop := {
  hash_size_nonneg : 0 <= TPM_HASH_SIZE;
  nonce_size_nonneg : 0 <= TPM_NONCE_SIZE;
  trailer_fits : 2 * (TPM_NONCE_SIZE + 1 + TPM_HASH_SIZE) < 2 ^ 32;
  tag_noauth_auth1 : TPM_TAG_RSP_COMMAND <> TPM_TAG_RSP_AUTH1_COMMAND;
  tag_noauth_auth2 : TPM_TAG_RSP_COMMAND <> TPM_TAG_RSP_AUTH2_COMMAND;
  tag_auth1_auth2 : TPM_TAG_RSP_AUTH1_COMMAND <> TPM_TAG_RSP_AUTH2_COMMAND;
  sha1_length : forall m, Zlength' (sha1 m) = TPM_HASH_SIZE;
  hmac_length : forall k m, Zlength' (hmac_sha1 k m) = TPM_HASH_SIZE
}.

(** ** A concrete environment *)

(** The TPM 1.2 values (20-byte nonce and digest, tags 0x00C4, 0x00C5 and
    0x00C6) with a 20-byte checksum standing in for SHA-1 and for
    HMAC-SHA-1, so that the functions can be run on concrete calls. *)
Module Tpm12.

Definition mix (m : bytes) : Z :=
  fold_left (fun s b => (s * 131 + byte_val b + 1) mod 65521) m 7.

Definition digest_of (s : Z) : bytes :=
  map (fun i => byte_of_Z (s * (Z.of_nat i + 1) + Z.of_nat i)) (seq 0 20).

Definition sum_sha1 (m : bytes) : bytes := digest_of (mix m).

Definition sum_hmac (k m : bytes) : bytes :=
  digest_of (mix (k ++ sum_sha1 (k ++ m))).

Definition env : TlclEnv := {|
  TPM_HASH_SIZE := 20;
  TPM_NONCE_SIZE := 20;
  TPM_TAG_RSP_COMMAND := 196;
  TPM_TAG_RSP_AUTH1_COMMAND := 197;
  TPM_TAG_RSP_AUTH2_COMMAND := 198;
  sha1 := sum_sha1;
  hmac_sha1 := sum_hmac
|}.

Definition B (l : list Z) : bytes := map byte_of_Z l.

Definition command : Z := 23.
Definition nonceOdd : bytes := repeat (byte_of_Z 17) 20.
Definition key : bytes := B (map Z.of_nat (seq 1 20)).
Definition key2 : bytes := B (map Z.of_nat (seq 101 20)).
Definition evenA : bytes := repeat (byte_of_Z 238) 20.
Definition evenB : bytes := repeat (byte_of_Z 204) 20.
Definition cont : bytes := B [1].

(** An AUTH1 response of declared size 100: header (bytes 0-9), 49 body
    bytes (10-58), even nonce (59-78), continue flag (79) and HMAC
    (80-99).  The call selects 4 bytes at position 10 and 8 bytes at
    position 20. *)
Definition head1 : bytes := B [0; 197; 0; 0; 0; 100; 0; 0; 0; 0].
Definition body1 : bytes := B (map Z.of_nat (seq 10 49)).
Definition args1 : va_list := [VaU32 4; VaU32 10; VaU32 8; VaU32 20; VaU32 0].
Definition paramDigest1 : bytes :=
  sum_sha1 (B [0; 0; 0; 0] ++ B [0; 0; 0; 23] ++ B [10; 11; 12; 13]
            ++ B [20; 21; 22; 23; 24; 25; 26; 27]).
Definition hmac1 : bytes :=
  sum_hmac key (paramDigest1 ++ evenA ++ nonceOdd ++ cont).
Definition resp1 : bytes := head1 ++ body1 ++ evenA ++ cont ++ hmac1.

(** The same response with its declared size lowered to 10, less than
    the 41 bytes of an authorization block. *)
Definition resp1_short : bytes :=
  B [0; 197; 0; 0; 0; 10; 0; 0; 0; 0] ++ body1 ++ evenA ++ cont ++ hmac1.

(** The same 100 bytes with the declared size raised to 110, ten more than
    the object holds. *)
Definition resp1_long : bytes :=
  B [0; 197; 0; 0; 0; 110; 0; 0; 0; 0] ++ body1 ++ evenA ++ cont ++ hmac1.

(** [resp1] with byte 28, which the call does not select, replaced. *)
Definition resp1_other_body : bytes :=
  head1 ++ B (map Z.of_nat (seq 10 18)) ++ B [255]
    ++ B (map Z.of_nat (seq 29 30)) ++ evenA ++ cont ++ hmac1.

(** A call on [resp1] that selects 4 bytes at position 200, outside the
    100-byte response. *)
Definition args_outside : va_list := [VaU32 4; VaU32 200; VaU32 0].

(** An AUTH2 response of declared size 100: header (0-9), 8 body bytes
    (10-17), first block (even nonce 18-37, flag 38, HMAC 39-58), second
    block (even nonce 59-78, flag 79, HMAC 80-99).  The call selects 4
    bytes at position 10 and 4 bytes at position 14. *)
Definition head2 : bytes := B [0; 198; 0; 0; 0; 100; 0; 0; 0; 0].
Definition body2 : bytes := B [10; 11; 12; 13; 14; 15; 16; 17].
Definition args2 : va_list := [VaU32 4; VaU32 10; VaU32 4; VaU32 14; VaU32 0].
Definition paramDigest2 : bytes :=
  sum_sha1 (B [0; 0; 0; 0] ++ B [0; 0; 0; 23] ++ B [10; 11; 12; 13]
            ++ B [14; 15; 16; 17]).
Definition hmac2a : bytes :=
  sum_hmac key (paramDigest2 ++ evenA ++ nonceOdd ++ cont).
Definition hmac2b : bytes :=
  sum_hmac key2 (paramDigest2 ++ evenB ++ nonceOdd ++ cont).
Definition wrong : bytes := repeat (byte_of_Z 0) 20.
Definition resp2 : bytes :=
  head2 ++ body2 ++ evenA ++ cont ++ hmac2a ++ evenB ++ cont ++ hmac2b.
(** [resp2] with the first block's HMAC field replaced. *)
Definition resp2_bad1 : bytes :=
  head2 ++ body2 ++ evenA ++ cont ++ wrong ++ evenB ++ cont ++ hmac2b.
(** [resp2] with the second block's HMAC field replaced. *)
Definition resp2_bad2 : bytes :=
  head2 ++ body2 ++ evenA ++ cont ++ hmac2a ++ evenB ++ cont ++ wrong.

(** Responses made of a header only: one with the NO_AUTH tag (0x00C4),
    one with a tag that is none of the three (0x0000). *)
Definition resp_noauth : bytes := B [0; 196; 0; 0; 0; 10; 0; 0; 0; 0].
Definition resp_other : bytes := B [0; 0; 0; 0; 0; 10; 0; 0; 0; 0].

(** Calls of TSS_AuthHMAC: a caller's 20-byte digest buffer, two selected
    byte strings, and a list whose second entry has a NULL data
    pointer. *)
Definition digest0 : bytes := repeat (byte_of_Z 170) 20.
Definition dataA : bytes := B [0; 0; 0; 23].
Definition dataB : bytes := B [1; 2; 3; 4; 5; 6].
Definition auth_args : va_list :=
  [VaU32 4; VaPtr (Some dataA); VaU32 6; VaPtr (Some dataB); VaU32 0].
Definition auth_args_null : va_list :=
  [VaU32 4; VaPtr (Some dataA); VaU32 6; VaPtr None; VaU32 0].

End Tpm12.

(** ** Vocabulary of the statements *)

(** The variadic list a caller builds from (size, position) pairs. *)
Definition va_ranges (rs : list (Z * Z)) : va_list :=
  flat_map (fun r => [VaU32 (fst r); VaU32 (snd r)]) rs.

(** The variadic list a caller builds from (size, data) pairs. *)
Definition va_entries (es : list (Z * ptr)) : va_list :=
  flat_map (fun e => [VaU32 (fst e); VaPtr (snd e)]) es.

(** A pair is a non-sentinel pair of 32-bit values. *)
Definition u32_pair (r : Z * Z) : Prop :=
  0 < fst r < 2 ^ 32 /\ 0 <= snd r < 2 ^ 32.

(** The selected range lies inside the object [b]. *)
Definition range_inside (b : bytes) (r : Z * Z) : Prop :=
  snd r + fst r <= Zlength' b.

(** The bytes a (size, position) pair selects from [b]. *)
Definition selected (b : bytes) (r : Z * Z) : bytes :=
  slice b (snd r) (fst r).

(** A (size, data) entry with a non-NULL pointer to at least [size]
    bytes. *)
Definition entry_ok (e : Z * ptr) : Prop :=
  (0 < fst e < 2 ^ 32) /\
  (match snd e with
   | Some d => fst e <= Zlength' d
   | None => False
   end).

Definition entry_bytes (e : Z * ptr) : bytes :=
  match snd e with
  | Some d => slice d 0 (fst e)
  | None => []
  end.


(** The tag and the declared total size a response carries in its first
    six bytes. *)
Definition tag_of (buf : bytes) : Z := FromTpmUint16 (slice buf 0 2).
Definition size_of (buf : bytes) : Z := FromTpmUint32 (slice buf 2 4).

(** The accesses every call makes first: the tag and the size. *)
Definition header_reads : list access :=
  [Read ObjResponse 0 2; Read ObjResponse 2 4].

Definition range_reads (rs : list (Z * Z)) : list access :=
  map (fun r => Read ObjResponse (snd r) (fst r)) rs.

(** The start of the authorization block the verifier addresses with
    [offset]: [response + size - offset]. *)
Definition block_reads `{TlclEnv} (ko : obj) (keySize start : Z)
    : list access :=
  [ Read ko 0 keySize;
    Read ObjResponse start TPM_NONCE_SIZE;
    Read ObjNonceOdd 0 TPM_NONCE_SIZE;
    Read ObjResponse (start + TPM_NONCE_SIZE) 1;
    Read ko 0 keySize;
    Read ObjResponse (start + TPM_NONCE_SIZE + 1) TPM_HASH_SIZE ].

(** HMAC (key, paramDigest ‖ evenNonce ‖ nonceOdd ‖ continueFlag) for the
    block that starts at [start]. *)
Definition block_hmac `{TlclEnv} (buf : bytes) (start : Z) (no k : bytes)
    (keySize : Z) (pd : bytes) : bytes :=
  hmac_sha1 (slice k 0 keySize)
            (pd ++ slice buf start TPM_NONCE_SIZE
                ++ slice no 0 TPM_NONCE_SIZE
                ++ slice buf (start + TPM_NONCE_SIZE) 1).

(** The HMAC field embedded in the block that starts at [start]. *)
Definition block_field `{TlclEnv} (buf : bytes) (start : Z) : bytes :=
  slice buf (start + TPM_NONCE_SIZE + 1) TPM_HASH_SIZE.

(** The plain hash of return code, ordinal and selected ranges. *)
Definition response_digest `{TlclEnv} (buf : bytes) (command : Z)
    (rs : list (Z * Z)) : bytes :=
  sha1 (slice buf 6 4 ++ ToTpmUint32 command
          ++ concat (map (selected buf) rs)).

(** The length of the trailer the verifier assumes for a tag. *)
Definition trailer_offset `{TlclEnv} (tag : Z) : Z :=
  if tag =? TPM_TAG_RSP_AUTH2_COMMAND
  then 2 * (TPM_NONCE_SIZE + 1 + TPM_HASH_SIZE)
  else TPM_NONCE_SIZE + 1 + TPM_HASH_SIZE.

(** The byte ranges a run addresses, as (object, offset, length) in
    program order: those of the accesses in its trace and, when the run
    ends at an access outside an object, that access as the last one. *)
Definition addressed {A} (m : M A) : list (obj * Z * Z) :=
  map (fun a =>
         match a with
         | Read o off len => (o, off, len)
         | Write o off len => (o, off, len)
         end) (trace m)
  ++ match result m with
     | Fault (OutOfBounds o off len) => [(o, off, len)]
     | _ => []
     end.

(** An access that only reads; a trace without a store. *)
Definition is_read (a : access) : Prop :=
  match a with
  | Read _ _ _ => True
  | Write _ _ _ => False
  end.

Definition reads_only (t : list access) : Prop := Forall is_read t.

(** A pointer into the object [b], [pos] bytes after its start. *)
Definition ptr_at (b : bytes) (pos : Z) : ptr := Some (skipn (Z.to_nat pos) b).

(** The (size, data) entries a caller passes to TSS_AuthHMAC to hash the
    same bytes TSS_CheckHMAC hashes for a response: the return code, the
    ordinal, and each selected range, all but the ordinal addressed inside
    the response itself. *)
Definition response_entries (buf : bytes) (command : Z) (rs : list (Z * Z))
    : list (Z * ptr) :=
  (4, ptr_at buf 6) :: (4, Some (ToTpmUint32 command))
    :: map (fun r => (fst r, ptr_at buf (snd r))) rs.


(** * Properties *)

(** ** The monad and the memory model *)

Lemma wrap32_small (x : Z) : 0 <= x < 2 ^ 32 -> wrap32 x = x.
Proof. intros Hx. unfold wrap32. now apply Z.mod_small. Qed.

Lemma in_bounds_true (b : bytes) (off len : Z) :
  0 <= off -> 0 <= len -> off + len <= Zlength' b ->
  in_bounds b off len = true.
Proof.
  intros H1 H2 H3. unfold in_bounds.
  apply andb_true_intro; split; [apply andb_true_intro; split|];
    now apply Z.leb_le.
Qed.

Lemma in_bounds_false (b : bytes) (off len : Z) :
  off < 0 \/ Zlength' b < off + len -> in_bounds b off len = false.
Proof.
  intros H. unfold in_bounds.
  destruct H as [H | H].
  - replace (0 <=? off) with false; [reflexivity|].
    symmetry. apply Z.leb_gt. exact H.
  - replace (off + len <=? Zlength' b) with false.
    + apply andb_false_r.
    + symmetry. apply Z.leb_gt. exact H.
Qed.

Lemma read_ok (o : obj) (b : bytes) (off len : Z) :
  0 <= off -> 0 <= len -> off + len <= Zlength' b ->
  read o (Some b) off len = ([Read o off len], Done (slice b off len)).
Proof.
  intros. unfold read. now rewrite in_bounds_true.
Qed.

Lemma read_oob (o : obj) (b : bytes) (off len : Z) :
  off < 0 \/ Zlength' b < off + len ->
  read o (Some b) off len = ([], Fault (OutOfBounds o off len)).
Proof.
  intros. unfold read. now rewrite in_bounds_false.
Qed.

Lemma bind_done {A B} (l : list access) (a : A) (k : A -> M B) :
  bind (l, Done a) k = after l (k a).
Proof. unfold bind, after, trace, result. now destruct (k a). Qed.

Lemma after_pair {A} (l l' : list access) (r : outcome A) :
  after l (l', r) = (l ++ l', r).
Proof. reflexivity. Qed.

Lemma result_after {A} (l : list access) (m : M A) :
  result (after l m) = result m.
Proof. reflexivity. Qed.


Lemma bind_fault {A B} (l : list access) (f : fault) (k : A -> M B) :
  bind (l, Fault f) k = (l, Fault f).
Proof. reflexivity. Qed.

Lemma result_bind_fault {A B} (m : M A) (k : A -> M B) (f : fault) :
  result m = Fault f -> result (bind m k) = Fault f.
Proof.
  destruct m as [l [a|f']]; unfold result; simpl; intros Hm;
    [discriminate | congruence].
Qed.

Lemma bytes_eqb_eq (a b : bytes) : bytes_eqb a b = true <-> a = b.
Proof.
  revert b. induction a as [|x a IH]; intros [|y b]; simpl;
    try (split; [discriminate | discriminate]); [tauto|].
  rewrite andb_true_iff, IH. split.
  - intros [Hxy ->]. f_equal. now apply Byte.byte_dec_bl.
  - intros Heq. injection Heq as -> ->. split; [|reflexivity].
    now apply Byte.byte_dec_lb.
Qed.

Lemma bytes_eqb_neq (a b : bytes) : bytes_eqb a b = false <-> a <> b.
Proof.
  rewrite <- bytes_eqb_eq. destruct (bytes_eqb a b); split; intros;
    congruence.
Qed.

Lemma firstn_Zlength (n : Z) (b : bytes) :
  Zlength' b = n -> firstn (Z.to_nat n) b = b.
Proof.
  intros <-. unfold Zlength'. rewrite Nat2Z.id. apply firstn_all.
Qed.


Ltac run_bind := rewrite bind_done; cbv beta.

Lemma hmac_starts_ok (o : obj) (k : bytes) (keySize : Z) :
  0 <= keySize <= Zlength' k ->
  hmac_starts o (Some k) keySize
  = ([Read o 0 keySize], Done {| hkey := slice k 0 keySize; hmsg := [] |}).
Proof.
  intros Hk. unfold hmac_starts. rewrite read_ok by lia.
  now rewrite bind_done.
Qed.

Lemma hmac_finish_ok `{TlclEnv} (ctx : HMAC_CTX) (o : obj) (k : bytes)
    (keySize : Z) :
  0 <= keySize <= Zlength' k ->
  hmac_finish ctx o (Some k) keySize
  = ([Read o 0 keySize], Done (hmac_sha1 (hkey ctx) (hmsg ctx))).
Proof.
  intros Hk. unfold hmac_finish. rewrite read_ok by lia.
  now rewrite bind_done.
Qed.

Lemma memcmp_ne_ok (a : bytes) (o : obj) (b : bytes) (off n : Z) :
  0 <= off -> 0 <= n -> off + n <= Zlength' b ->
  memcmp_ne a o (Some b) off n
  = ([Read o off n],
     Done (negb (bytes_eqb (firstn (Z.to_nat n) a) (slice b off n)))).
Proof.
  intros. unfold memcmp_ne. rewrite read_ok by lia.
  now rewrite bind_done.
Qed.

(** The header fields are big-endian. *)
Example ToTpmUint32_big_endian :
  ToTpmUint32 16909060 = map byte_of_Z [1; 2; 3; 4]
  /\ FromTpmUint32 (map byte_of_Z [1; 2; 3; 4]) = 16909060
  /\ FromTpmUint16 (map byte_of_Z [0; 197]) = 197.
Proof. repeat split. Qed.

(** ** The two loops over the variadic list *)

Lemma check_hash_args_run (buf : bytes) (rs : list (Z * Z)) (rest : va_list)
    (ctx : SHA1_CTX) :
  Forall u32_pair rs -> Forall (range_inside buf) rs ->
  check_hash_args (Some buf) (va_ranges rs ++ VaU32 0 :: rest) ctx =
  (map (fun r => Read ObjResponse (snd r) (fst r)) rs,
   Done (ctx ++ concat (map (selected buf) rs))).
Proof.
  revert ctx. induction rs as [|[sz pos] rs IH]; intros ctx Hu Hin.
  - simpl. now rewrite app_nil_r.
  - inversion Hu as [|? ? [Hsz Hpos] Hu']; subst.
    inversion Hin as [|? ? Hr Hin']; subst.
    unfold range_inside in Hr. simpl in Hsz, Hpos, Hr.
    cbn [va_ranges flat_map app fst snd check_hash_args].
    fold (va_ranges rs).
    rewrite !wrap32_small by lia.
    destruct (Z.eqb_spec sz 0) as [->|_]; [lia|].
    rewrite read_ok by lia. rewrite bind_done.
    rewrite IH by assumption.
    unfold after, trace, result, sha1_update, selected. simpl.
    now rewrite <- app_assoc.
Qed.

Lemma check_hash_args_outside (buf : bytes) (rs : list (Z * Z))
    (rest : va_list) (ctx : SHA1_CTX) :
  Forall u32_pair rs -> Exists (fun r => ~ range_inside buf r) rs ->
  exists off len,
    result (check_hash_args (Some buf) (va_ranges rs ++ VaU32 0 :: rest) ctx)
    = Fault (OutOfBounds ObjResponse off len)
    /\ Zlength' buf < off + len.
Proof.
  revert ctx. induction rs as [|[sz pos] rs IH]; intros ctx Hu Hex.
  - inversion Hex.
  - inversion Hu as [|? ? [Hsz Hpos] Hu']; subst. simpl in Hsz, Hpos.
    cbn [va_ranges flat_map app fst snd check_hash_args].
    fold (va_ranges rs).
    rewrite !wrap32_small by lia.
    destruct (Z.eqb_spec sz 0) as [->|_]; [lia|].
    destruct (Z_le_gt_dec (pos + sz) (Zlength' buf)) as [Hle | Hgt].
    + rewrite read_ok by lia. rewrite bind_done, result_after.
      apply IH; [assumption|].
      inversion Hex as [? ? Hbad | ? ? Hex']; subst; [|assumption].
      exfalso. apply Hbad. exact Hle.
    + rewrite read_oob by lia. rewrite bind_fault.
      exists pos, sz. split; [reflexivity | lia].
Qed.

Lemma auth_hash_args_run (es : list (Z * ptr)) (rest : va_list)
    (ctx : SHA1_CTX) :
  Forall entry_ok es ->
  auth_hash_args (va_entries es ++ VaU32 0 :: rest) ctx =
  (map (fun e => Read ObjArgData 0 (fst e)) es,
   Done (inr (ctx ++ concat (map entry_bytes es)))).
Proof.
  revert ctx. induction es as [|[sz [d|]] es IH]; intros ctx Hok.
  - simpl. now rewrite app_nil_r.
  - inversion Hok as [|? ? [Hsz Hd] Hok']; subst. simpl in Hsz, Hd.
    cbn [va_entries flat_map app fst snd auth_hash_args is_null].
    fold (va_entries es).
    rewrite wrap32_small by lia.
    destruct (Z.eqb_spec sz 0) as [->|_]; [lia|].
    rewrite read_ok by lia. rewrite bind_done.
    rewrite IH by assumption.
    unfold after, trace, result, sha1_update, entry_bytes. simpl.
    now rewrite <- app_assoc.
  - inversion Hok as [|? ? [_ Hnull] _]. destruct Hnull.
Qed.

Lemma auth_hash_args_null (es : list (Z * ptr)) (sz : Z) (rest : va_list)
    (ctx : SHA1_CTX) :
  Forall entry_ok es -> 0 < sz < 2 ^ 32 ->
  auth_hash_args (va_entries es ++ VaU32 sz :: VaPtr None :: rest) ctx =
  (map (fun e => Read ObjArgData 0 (fst e)) es, Done (inl TPM_E_NULL_ARG)).
Proof.
  intros Hok Hsz. revert ctx.
  induction es as [|[sz' [d|]] es IH]; intros ctx.
  - simpl. rewrite wrap32_small by lia.
    destruct (Z.eqb_spec sz 0) as [->|_]; [lia | reflexivity].
  - inversion Hok as [|? ? [Hsz' Hd] Hok']; subst. simpl in Hsz', Hd.
    cbn [va_entries flat_map app fst snd auth_hash_args is_null].
    fold (va_entries es).
    rewrite wrap32_small by lia.
    destruct (Z.eqb_spec sz' 0) as [->|_]; [lia|].
    rewrite read_ok by lia. rewrite bind_done.
    rewrite IH by assumption. reflexivity.
  - inversion Hok as [|? ? [_ Hnull] _]. destruct Hnull.
Qed.

(** ** Runs of TSS_CheckHMAC *)

Section CheckHMAC.

Context {E : TlclEnv}.
Hypothesis Hok : TlclEnvOk E.

Lemma firstn_sha1 (m : bytes) :
  firstn (Z.to_nat TPM_HASH_SIZE) (sha1 m) = sha1 m.
Proof. apply firstn_Zlength, (sha1_length E Hok). Qed.

Lemma firstn_hmac (k m : bytes) :
  firstn (Z.to_nat TPM_HASH_SIZE) (hmac_sha1 k m) = hmac_sha1 k m.
Proof. apply firstn_Zlength, (hmac_length E Hok). Qed.

Lemma offset_auth1 :
  wrap32 (TPM_NONCE_SIZE + 1 + TPM_HASH_SIZE)
  = TPM_NONCE_SIZE + 1 + TPM_HASH_SIZE.
Proof.
  destruct Hok. apply wrap32_small. lia.
Qed.

Lemma offset_auth2 :
  wrap32 (wrap32 (TPM_NONCE_SIZE + 1 + TPM_HASH_SIZE) * 2)
  = 2 * (TPM_NONCE_SIZE + 1 + TPM_HASH_SIZE).
Proof.
  rewrite offset_auth1. destruct Hok. rewrite wrap32_small; lia.
Qed.

Lemma offset_auth2_halved :
  2 * (TPM_NONCE_SIZE + 1 + TPM_HASH_SIZE) / 2
  = TPM_NONCE_SIZE + 1 + TPM_HASH_SIZE.
Proof.
  rewrite Z.mul_comm. apply Z.div_mul. lia.
Qed.

(** One authorization block whose bytes all lie inside the response. *)
Lemma auth_block_run (buf : bytes) (size offset : Z) (no : bytes)
    (ko : obj) (k : bytes) (keySize : Z) (m : bytes) :
  0 <= size - offset ->
  size - offset + TPM_NONCE_SIZE + 1 + TPM_HASH_SIZE <= Zlength' buf ->
  TPM_NONCE_SIZE <= Zlength' no ->
  0 <= keySize <= Zlength' k ->
  auth_block (Some buf) size offset (Some no) ko (Some k) keySize (sha1 m)
  = (block_reads ko keySize (size - offset),
     Done (negb (bytes_eqb
                   (block_hmac buf (size - offset) no k keySize (sha1 m))
                   (block_field buf (size - offset))))).
Proof.
  intros H0 Hend Hno Hk.
  pose proof (hash_size_nonneg E Hok) as HH.
  pose proof (nonce_size_nonneg E Hok) as HN.
  unfold auth_block.
  rewrite hmac_starts_ok by lia. run_bind.
  rewrite read_ok by lia. run_bind.
  rewrite read_ok by lia. run_bind.
  rewrite read_ok by lia. run_bind.
  rewrite hmac_finish_ok by lia. run_bind.
  rewrite memcmp_ne_ok by lia.
  rewrite !after_pair.
  unfold hmac_update. cbn [hkey hmsg app].
  rewrite firstn_hmac, firstn_sha1.
  unfold block_reads, block_hmac, block_field.
  now rewrite <- !app_assoc.
Qed.

(** The block's first read falls before the start of the response. *)
Lemma auth_block_before (buf : bytes) (size offset : Z) (no : ptr)
    (ko : obj) (k : bytes) (keySize : Z) (pd : bytes) :
  size - offset < 0 ->
  0 <= keySize <= Zlength' k ->
  result (auth_block (Some buf) size offset no ko (Some k) keySize pd)
  = Fault (OutOfBounds ObjResponse (size - offset) TPM_NONCE_SIZE).
Proof.
  intros Hneg Hk.
  unfold auth_block.
  rewrite hmac_starts_ok by lia. run_bind.
  rewrite read_oob by (left; exact Hneg).
  rewrite bind_fault. reflexivity.
Qed.

Ltac check_header :=
  unfold TSS_CheckHMAC, TPM_U16_SIZE, TPM_U32_SIZE;
  rewrite read_ok by lia; run_bind;
  rewrite read_ok by lia; run_bind;
  cbv zeta;
  match goal with
  | |- context [slice ?b 0 2] =>
      fold (tag_of b); fold (size_of b)
  end.

Ltac tag_differs H :=
  first [ rewrite (proj2 (Z.eqb_neq _ _) H)
        | rewrite (proj2 (Z.eqb_neq _ _) (not_eq_sym H)) ].

(** Lines 49-50. *)
Lemma CheckHMAC_noauth_run (buf : bytes) (command : Z)
    (nonceOdd key : ptr) (keySize : Z) (key2 : ptr) (keySize2 : Z)
    (argp : va_list) :
  6 <= Zlength' buf ->
  tag_of buf = TPM_TAG_RSP_COMMAND ->
  TSS_CheckHMAC (Some buf) command nonceOdd key keySize key2 keySize2 argp
  = (header_reads, Done TPM_SUCCESS).
Proof.
  intros Hlen Htag. check_header.
  rewrite Htag, Z.eqb_refl. reflexivity.
Qed.

(** Lines 52-53. *)
Lemma CheckHMAC_null_run (buf : bytes) (command : Z)
    (nonceOdd key : ptr) (keySize : Z) (key2 : ptr) (keySize2 : Z)
    (argp : va_list) :
  6 <= Zlength' buf ->
  tag_of buf <> TPM_TAG_RSP_COMMAND ->
  nonceOdd = None \/ key = None ->
  TSS_CheckHMAC (Some buf) command nonceOdd key keySize key2 keySize2 argp
  = (header_reads, Done TPM_E_NULL_ARG).
Proof.
  intros Hlen Htag Hnull. check_header.
  tag_differs Htag.
  destruct Hnull as [-> | ->]; cbn [is_null orb]; [reflexivity|].
  now rewrite orb_true_r.
Qed.

(** Lines 56-57. *)
Lemma CheckHMAC_other_run (buf no k : bytes) (command : Z)
    (keySize : Z) (key2 : ptr) (keySize2 : Z) (argp : va_list) :
  6 <= Zlength' buf ->
  tag_of buf <> TPM_TAG_RSP_COMMAND ->
  tag_of buf <> TPM_TAG_RSP_AUTH1_COMMAND ->
  tag_of buf <> TPM_TAG_RSP_AUTH2_COMMAND ->
  TSS_CheckHMAC (Some buf) command (Some no) (Some k) keySize key2
                keySize2 argp
  = (header_reads, Done TPM_E_HMAC_FAIL).
Proof.
  intros Hlen H0 H1 H2. check_header.
  tag_differs H0. tag_differs H1. tag_differs H2. reflexivity.
Qed.

(** Lines 60-61. *)
Lemma CheckHMAC_nokey2_run (buf no k : bytes) (command : Z)
    (keySize keySize2 : Z) (argp : va_list) :
  6 <= Zlength' buf ->
  tag_of buf = TPM_TAG_RSP_AUTH2_COMMAND ->
  TSS_CheckHMAC (Some buf) command (Some no) (Some k) keySize None
                keySize2 argp
  = (header_reads, Done TPM_E_NULL_ARG).
Proof.
  intros Hlen Htag. check_header. rewrite Htag.
  tag_differs (tag_noauth_auth2 E Hok). tag_differs (tag_auth1_auth2 E Hok).
  rewrite Z.eqb_refl. reflexivity.
Qed.

(** A whole run on an AUTH1 response all of whose selected ranges and
    whose trailer lie inside the response. *)
Lemma CheckHMAC_auth1_run (buf no k : bytes) (command keySize : Z)
    (key2 : ptr) (keySize2 : Z) (rs : list (Z * Z)) (rest : va_list) :
  10 <= Zlength' buf ->
  tag_of buf = TPM_TAG_RSP_AUTH1_COMMAND ->
  Forall u32_pair rs -> Forall (range_inside buf) rs ->
  TPM_NONCE_SIZE + 1 + TPM_HASH_SIZE <= size_of buf <= Zlength' buf ->
  TPM_NONCE_SIZE <= Zlength' no ->
  0 <= keySize <= Zlength' k ->
  let start := size_of buf - (TPM_NONCE_SIZE + 1 + TPM_HASH_SIZE) in
  TSS_CheckHMAC (Some buf) command (Some no) (Some k) keySize key2
                keySize2 (va_ranges rs ++ VaU32 0 :: rest)
  = (header_reads ++ [Read ObjResponse 6 4] ++ range_reads rs
       ++ block_reads ObjKey keySize start,
     Done (if bytes_eqb
                (block_hmac buf start no k keySize
                            (response_digest buf command rs))
                (block_field buf start)
           then TPM_SUCCESS else TPM_E_HMAC_FAIL)).
Proof.
  intros Hlen Htag Hu Hin Hsz Hno Hk start.
  check_header. rewrite Htag.
  tag_differs (tag_noauth_auth1 E Hok). tag_differs (tag_auth1_auth2 E Hok).
  rewrite Z.eqb_refl. cbn [is_null orb negb andb].
  change (2 + 4) with 6.
  rewrite read_ok by lia. run_bind.
  unfold sha1_starts, sha1_update, sha1_finish. cbn [app].
  rewrite check_hash_args_run by assumption. run_bind.
  rewrite offset_auth1.
  rewrite auth_block_run by lia. run_bind.
  fold start. rewrite <- app_assoc. fold (response_digest buf command rs).
  fold (range_reads rs).
  destruct (bytes_eqb _ _); cbn [negb]; unfold ret;
    rewrite !after_pair; cbn [app]; rewrite ?app_nil_r; reflexivity.
Qed.

(** A whole run on an AUTH2 response all of whose selected ranges and
    both of whose blocks lie inside the response. *)
Lemma CheckHMAC_auth2_run (buf no k k2 : bytes)
    (command keySize keySize2 : Z) (rs : list (Z * Z)) (rest : va_list) :
  10 <= Zlength' buf ->
  tag_of buf = TPM_TAG_RSP_AUTH2_COMMAND ->
  Forall u32_pair rs -> Forall (range_inside buf) rs ->
  2 * (TPM_NONCE_SIZE + 1 + TPM_HASH_SIZE) <= size_of buf <= Zlength' buf ->
  TPM_NONCE_SIZE <= Zlength' no ->
  0 <= keySize <= Zlength' k ->
  0 <= keySize2 <= Zlength' k2 ->
  let start1 := size_of buf - 2 * (TPM_NONCE_SIZE + 1 + TPM_HASH_SIZE) in
  let start2 := size_of buf - (TPM_NONCE_SIZE + 1 + TPM_HASH_SIZE) in
  let pd := response_digest buf command rs in
  let ok1 :=
    bytes_eqb (block_hmac buf start1 no k keySize pd)
              (block_field buf start1) in
  let ok2 :=
    bytes_eqb (block_hmac buf start2 no k2 keySize2 pd)
              (block_field buf start2) in
  TSS_CheckHMAC (Some buf) command (Some no) (Some k) keySize (Some k2)
                keySize2 (va_ranges rs ++ VaU32 0 :: rest)
  = (header_reads ++ [Read ObjResponse 6 4] ++ range_reads rs
       ++ block_reads ObjKey keySize start1
       ++ (if ok1 then block_reads ObjKey2 keySize2 start2 else []),
     Done (if ok1
           then if ok2 then TPM_SUCCESS else TPM_E_HMAC_FAIL
           else TPM_E_HMAC_FAIL)).
Proof.
  intros Hlen Htag Hu Hin Hsz Hno Hk Hk2 start1 start2 pd ok1 ok2.
  pose proof (hash_size_nonneg E Hok) as HH.
  pose proof (nonce_size_nonneg E Hok) as HN.
  check_header. rewrite Htag.
  tag_differs (tag_noauth_auth2 E Hok). tag_differs (tag_auth1_auth2 E Hok).
  rewrite Z.eqb_refl. cbn [is_null orb negb andb].
  change (2 + 4) with 6.
  rewrite read_ok by lia. run_bind.
  unfold sha1_starts, sha1_update, sha1_finish. cbn [app].
  rewrite check_hash_args_run by assumption. run_bind.
  rewrite offset_auth2, offset_auth2_halved.
  rewrite <- app_assoc. fold (response_digest buf command rs). fold pd.
  unfold pd at 1 2. unfold response_digest at 1 2.
  rewrite auth_block_run by lia. run_bind.
  fold (response_digest buf command rs). fold pd. fold start1. fold ok1.
  fold (range_reads rs).
  destruct ok1; cbn [negb].
  - unfold pd at 1. unfold response_digest at 1.
    rewrite auth_block_run by lia. run_bind.
    fold (response_digest buf command rs). fold pd. fold start2. fold ok2.
    destruct ok2; cbn [negb]; unfold ret; rewrite !after_pair;
      cbn [app]; rewrite ?app_nil_r; reflexivity.
  - unfold ret. rewrite !after_pair. cbn [app]. reflexivity.
Qed.

(** A run in which a selected range leaves the response, or the declared
    size is smaller than the trailer: it ends in an access outside the
    response. *)
Lemma CheckHMAC_outside_run (buf no k : bytes) (command keySize : Z)
    (key2 : ptr) (keySize2 : Z) (rs : list (Z * Z)) (rest : va_list) :
  10 <= Zlength' buf ->
  tag_of buf = TPM_TAG_RSP_AUTH1_COMMAND
  \/ (tag_of buf = TPM_TAG_RSP_AUTH2_COMMAND /\ key2 <> None) ->
  Forall u32_pair rs ->
  0 <= keySize <= Zlength' k ->
  Exists (fun r => ~ range_inside buf r) rs
  \/ size_of buf < trailer_offset (tag_of buf) ->
  exists off len,
    result (TSS_CheckHMAC (Some buf) command (Some no) (Some k) keySize
                          key2 keySize2 (va_ranges rs ++ VaU32 0 :: rest))
    = Fault (OutOfBounds ObjResponse off len)
    /\ (off < 0 \/ Zlength' buf < off + len).
Proof.
  intros Hlen Htag Hu Hk Hbad.
  assert (Hnot0 : tag_of buf <> TPM_TAG_RSP_COMMAND).
  { destruct Htag as [-> | [-> _]];
      [apply not_eq_sym, (tag_noauth_auth1 E Hok)
      |apply not_eq_sym, (tag_noauth_auth2 E Hok)]. }
  assert (Hguard :
    (negb (tag_of buf =? TPM_TAG_RSP_AUTH1_COMMAND)
     && negb (tag_of buf =? TPM_TAG_RSP_AUTH2_COMMAND) = false)
    /\ ((tag_of buf =? TPM_TAG_RSP_AUTH2_COMMAND) && is_null key2 = false)).
  { destruct Htag as [-> | [-> Hk2]].
    - rewrite Z.eqb_refl. tag_differs (tag_auth1_auth2 E Hok). now split.
    - rewrite Z.eqb_refl. split; [apply andb_false_r|].
      destruct key2; [reflexivity | congruence]. }
  destruct Hguard as [Hg1 Hg2].
  check_header. tag_differs Hnot0. cbn [is_null orb].
  rewrite Hg1, Hg2.
  change (2 + 4) with 6. rewrite result_after.
  rewrite read_ok by lia. run_bind. rewrite result_after.
  unfold sha1_starts, sha1_update, sha1_finish. cbn [app].
  destruct (Forall_Exists_dec (range_inside buf)
              (fun r => Z_le_dec (snd r + fst r) (Zlength' buf)) rs)
    as [Hin | Hex].
  - destruct Hbad as [Hex | Hsmall].
    { apply Exists_exists in Hex. destruct Hex as [r [Hr Hnot]].
      rewrite Forall_forall in Hin. elim Hnot. now apply Hin. }
    rewrite check_hash_args_run by assumption. run_bind.
    rewrite result_after.
    eexists _, _. split.
    + apply result_bind_fault. apply auth_block_before; [|exact Hk].
      unfold trailer_offset in Hsmall.
      rewrite offset_auth1.
      destruct (tag_of buf =? TPM_TAG_RSP_AUTH2_COMMAND).
      * rewrite <- offset_auth1 at 1. rewrite offset_auth2. lia.
      * lia.
    + left. unfold trailer_offset in Hsmall.
      rewrite offset_auth1.
      destruct (tag_of buf =? TPM_TAG_RSP_AUTH2_COMMAND).
      * rewrite <- offset_auth1 at 1. rewrite offset_auth2. lia.
      * lia.
  - destruct (check_hash_args_outside buf rs rest
                (slice buf 6 4 ++ ToTpmUint32 command) Hu Hex)
      as [off [len [Hres Hout]]].
    exists off, len. split; [|right; exact Hout].
    apply result_bind_fault. exact Hres.
Qed.

End CheckHMAC.

(** ** Runs of TSS_AuthHMAC *)

Section AuthHMAC.

Context {E : TlclEnv}.
Hypothesis Hok : TlclEnvOk E.

(** The accesses of a call that reaches the HMAC computation. *)
Lemma AuthHMAC_run (dg k n1 n2 : bytes) (keySize : Z) (authBool : uint8)
    (es : list (Z * ptr)) (rest : va_list) :
  Forall entry_ok es ->
  0 <= keySize <= Zlength' k ->
  TPM_NONCE_SIZE <= Zlength' n1 ->
  TPM_NONCE_SIZE <= Zlength' n2 ->
  TPM_HASH_SIZE <= Zlength' dg ->
  TSS_AuthHMAC (Some dg) (Some k) keySize (Some n1) (Some n2) authBool
               (va_entries es ++ VaU32 0 :: rest)
  = (map (fun e => Read ObjArgData 0 (fst e)) es
       ++ [ Read ObjKey 0 keySize;
            Read ObjNonce1 0 TPM_NONCE_SIZE;
            Read ObjNonce2 0 TPM_NONCE_SIZE;
            Read ObjKey 0 keySize;
            Write ObjDigest 0 TPM_HASH_SIZE ],
     Done (TPM_SUCCESS,
           Some (hmac_sha1 (slice k 0 keySize)
                   (sha1 (concat (map entry_bytes es))
                      ++ slice n1 0 TPM_NONCE_SIZE
                      ++ slice n2 0 TPM_NONCE_SIZE ++ [authBool])
                   ++ skipn (Z.to_nat TPM_HASH_SIZE) dg))).
Proof.
  intros Hes Hk Hn1 Hn2 Hdg.
  pose proof (hash_size_nonneg E Hok) as HH.
  pose proof (nonce_size_nonneg E Hok) as HN.
  unfold TSS_AuthHMAC. cbn [is_null orb]. cbv zeta.
  unfold sha1_starts, sha1_finish.
  rewrite auth_hash_args_run by assumption. run_bind. cbn [app].
  rewrite hmac_starts_ok by lia. run_bind.
  rewrite read_ok by lia. run_bind.
  rewrite read_ok by lia. run_bind.
  rewrite hmac_finish_ok by lia. run_bind.
  unfold hmac_update. cbn [hkey hmsg app].
  rewrite (firstn_sha1 Hok).
  unfold write. rewrite (hmac_length E Hok).
  rewrite in_bounds_true by lia. run_bind.
  unfold ret. rewrite !after_pair. cbn [app].
  replace (length (hmac_sha1 _ _)) with (Z.to_nat TPM_HASH_SIZE).
  - rewrite <- ?app_assoc. rewrite ?app_nil_r. reflexivity.
  - rewrite <- (hmac_length E Hok (slice k 0 keySize)
                  (sha1 (concat (map entry_bytes es))
                     ++ slice n1 0 TPM_NONCE_SIZE
                     ++ slice n2 0 TPM_NONCE_SIZE ++ [authBool])) at 1.
    unfold Zlength'. now rewrite Nat2Z.id, <- !app_assoc.
Qed.

End AuthHMAC.

(** A call whose list reaches a NULL data pointer before the sentinel. *)
Lemma AuthHMAC_null_run `{TlclEnv} (digest key : ptr) (keySize : Z)
    (n1 n2 : bytes) (authBool : uint8) (es : list (Z * ptr)) (sz : Z)
    (rest : va_list) :
  Forall entry_ok es -> 0 < sz < 2 ^ 32 ->
  TSS_AuthHMAC digest key keySize (Some n1) (Some n2) authBool
               (va_entries es ++ VaU32 sz :: VaPtr None :: rest)
  = (map (fun e => Read ObjArgData 0 (fst e)) es,
     Done (TPM_E_NULL_ARG, digest)).
Proof.
  intros Hes Hsz. unfold TSS_AuthHMAC. cbn [is_null orb]. cbv zeta.
  rewrite auth_hash_args_null by assumption. run_bind.
  unfold ret. rewrite after_pair. now rewrite app_nil_r.
Qed.

(** ** The concrete environment meets the assumptions *)

Lemma Tpm12_digest_length (s : Z) : Zlength' (Tpm12.digest_of s) = 20.
Proof.
  unfold Zlength', Tpm12.digest_of. now rewrite length_map, length_seq.
Qed.

Lemma Tpm12_env_ok : TlclEnvOk Tpm12.env.
Proof.
  constructor; cbn; try lia; intros; apply Tpm12_digest_length.
Qed.

(** ** Tactics for concrete calls *)

Ltac closed_fact :=
  vm_compute;
  first [ reflexivity
        | let Hc := fresh in intro Hc; discriminate Hc ].

Ltac concrete_side :=
  repeat first
    [ progress cbv beta delta [u32_pair range_inside entry_ok fst snd]
    | match goal with
      | |- _ /\ _ => split
      | |- Forall _ [] => apply Forall_nil
      | |- Forall _ (_ :: _) => apply Forall_cons
      end ];
  try closed_fact.

Lemma addressed_fault {A} (m : M A) (o : obj) (off len : Z) :
  result m = Fault (OutOfBounds o off len) ->
  In (o, off, len) (addressed m).
Proof.
  intros Hr. unfold addressed. rewrite Hr.
  apply in_or_app. right. now left.
Qed.

(** * The claims *)

(** ** TSS_CheckHMAC on AUTH1 responses *)

(** C1.  For an AUTH1-tagged response with non-NULL response, nonceOdd and
    key (and every byte the call addresses lying inside the object it is
    read from), the parameter digest is the plain hash of the 4 return-code
    bytes at offset 6, then the 4 big-endian bytes of the command ordinal,
    then each selected range in the order supplied; the verifier computes
    HMAC (key, paramDigest ‖ evenNonce ‖ nonceOdd ‖ continueFlag) and
    returns TPM_SUCCESS exactly when it equals the digest-size HMAC field of
    the trailer, and TPM_E_HMAC_FAIL on any mismatch. *)
Theorem CheckHMAC_auth1_verifies {E : TlclEnv} (Hok : TlclEnvOk E)
    (buf no k : bytes) (command keySize : Z) (key2 : ptr) (keySize2 : Z)
    (rs : list (Z * Z)) (rest : va_list) :
  10 <= Zlength' buf ->
  tag_of buf = TPM_TAG_RSP_AUTH1_COMMAND ->
  Forall u32_pair rs -> Forall (range_inside buf) rs ->
  TPM_NONCE_SIZE + 1 + TPM_HASH_SIZE <= size_of buf <= Zlength' buf ->
  TPM_NONCE_SIZE <= Zlength' no ->
  0 <= keySize <= Zlength' k ->
  let S := size_of buf in
  let paramDigest :=
    sha1 (slice buf 6 4 ++ ToTpmUint32 command
            ++ concat (map (selected buf) rs)) in
  let evenNonce := slice buf (S - (TPM_NONCE_SIZE + 1 + TPM_HASH_SIZE))
                         TPM_NONCE_SIZE in
  let nonceOdd := slice no 0 TPM_NONCE_SIZE in
  let continueFlag := slice buf (S - (1 + TPM_HASH_SIZE)) 1 in
  let expected :=
    hmac_sha1 (slice k 0 keySize)
              (paramDigest ++ evenNonce ++ nonceOdd ++ continueFlag) in
  let embedded := slice buf (S - TPM_HASH_SIZE) TPM_HASH_SIZE in
  let r :=
    result (TSS_CheckHMAC (Some buf) command (Some no) (Some k) keySize
                          key2 keySize2 (va_ranges rs ++ VaU32 0 :: rest)) in
  (r = Done TPM_SUCCESS <-> expected = embedded)
  /\ (expected <> embedded -> r = Done TPM_E_HMAC_FAIL).
Proof.
  intros Hlen Htag Hu Hin Hsz Hno Hk S paramDigest evenNonce nonceOdd
         continueFlag expected embedded r.
  assert (Hr : r = Done (if bytes_eqb expected embedded
                         then TPM_SUCCESS else TPM_E_HMAC_FAIL)).
  { unfold r.
    rewrite (CheckHMAC_auth1_run Hok buf no k command keySize key2 keySize2
               rs rest) by assumption.
    unfold result. cbn [snd].
    unfold block_hmac, block_field, response_digest.
    fold S.
    replace (S - (TPM_NONCE_SIZE + 1 + TPM_HASH_SIZE) + TPM_NONCE_SIZE + 1)
      with (S - TPM_HASH_SIZE) by lia.
    replace (S - (TPM_NONCE_SIZE + 1 + TPM_HASH_SIZE) + TPM_NONCE_SIZE)
      with (S - (1 + TPM_HASH_SIZE)) by lia.
    reflexivity. }
  rewrite Hr. destruct (bytes_eqb expected embedded) eqn:Heq.
  - apply bytes_eqb_eq in Heq. split; [tauto | contradiction].
  - apply bytes_eqb_neq in Heq. split; [|reflexivity].
    split; [discriminate | contradiction].
Qed.

Lemma CheckHMAC_auth1_verifies_witness :
  result (TSS_CheckHMAC (H := Tpm12.env) (Some Tpm12.resp1) Tpm12.command
            (Some Tpm12.nonceOdd) (Some Tpm12.key) 20 None 0 Tpm12.args1)
  = Done TPM_SUCCESS.
Proof.
  apply (proj1 (@CheckHMAC_auth1_verifies Tpm12.env Tpm12_env_ok
                  Tpm12.resp1 Tpm12.nonceOdd Tpm12.key Tpm12.command 20
                  None 0 [(4, 10); (8, 20)] []
                  ltac:(concrete_side) ltac:(concrete_side)
                  ltac:(concrete_side) ltac:(concrete_side)
                  ltac:(concrete_side) ltac:(concrete_side)
                  ltac:(concrete_side))).
  closed_fact.
Defined.

(** C3.  With digest size 20 and nonce size 20, on an AUTH1 response of
    declared total size S the verifier reads the even nonce at byte offset
    S - (20+1+20) and the continue-session flag at S - (1+20), and compares
    the HMAC it computes from them against the 20 bytes embedded at S - 20:
    the trace lists every access of the call in program order, and the
    call returns TPM_SUCCESS exactly when
    HMAC (key, paramDigest ‖ bytes at S-41 ‖ nonceOdd ‖ byte at S-21)
    equals the bytes at S - 20, TPM_E_HMAC_FAIL otherwise.  For S = 100 the
    offsets are 59, 79 and 80 (bytes 80-99). *)
Theorem CheckHMAC_auth1_offsets {E : TlclEnv} (Hok : TlclEnvOk E)
    (buf no k : bytes) (command keySize : Z) (key2 : ptr) (keySize2 : Z)
    (rs : list (Z * Z)) (rest : va_list) :
  TPM_HASH_SIZE = 20 -> TPM_NONCE_SIZE = 20 ->
  10 <= Zlength' buf ->
  tag_of buf = TPM_TAG_RSP_AUTH1_COMMAND ->
  Forall u32_pair rs -> Forall (range_inside buf) rs ->
  20 + 1 + 20 <= size_of buf <= Zlength' buf ->
  20 <= Zlength' no ->
  0 <= keySize <= Zlength' k ->
  let S := size_of buf in
  let m :=
    TSS_CheckHMAC (Some buf) command (Some no) (Some k) keySize
                  key2 keySize2 (va_ranges rs ++ VaU32 0 :: rest) in
  let paramDigest :=
    sha1 (slice buf 6 4 ++ ToTpmUint32 command
            ++ concat (map (selected buf) rs)) in
  let expected (evenAt contAt : Z) :=
    hmac_sha1 (slice k 0 keySize)
              (paramDigest ++ slice buf evenAt 20 ++ slice no 0 20
                 ++ slice buf contAt 1) in
  let reads (evenAt contAt hmacAt : Z) :=
    [Read ObjResponse 0 2; Read ObjResponse 2 4; Read ObjResponse 6 4]
      ++ range_reads rs
      ++ [ Read ObjKey 0 keySize;
           Read ObjResponse evenAt 20;
           Read ObjNonceOdd 0 20;
           Read ObjResponse contAt 1;
           Read ObjKey 0 keySize;
           Read ObjResponse hmacAt 20 ] in
  (trace m = reads (S - (20 + 1 + 20)) (S - (1 + 20)) (S - 20)
   /\ (result m = Done TPM_SUCCESS
       <-> expected (S - (20 + 1 + 20)) (S - (1 + 20)) = slice buf (S - 20) 20)
   /\ (expected (S - (20 + 1 + 20)) (S - (1 + 20)) <> slice buf (S - 20) 20
       -> result m = Done TPM_E_HMAC_FAIL))
  /\ (S = 100 ->
      trace m = reads 59 79 80
      /\ (result m = Done TPM_SUCCESS
          <-> expected 59 79 = slice buf 80 20)
      /\ (expected 59 79 <> slice buf 80 20
          -> result m = Done TPM_E_HMAC_FAIL)).
Proof.
  intros HH HN Hlen Htag Hu Hin Hsz Hno Hk S m paramDigest expected reads.
  assert (Hm : m = (reads (S - (20 + 1 + 20)) (S - (1 + 20)) (S - 20),
                    Done (if bytes_eqb
                               (expected (S - (20 + 1 + 20)) (S - (1 + 20)))
                               (slice buf (S - 20) 20)
                          then TPM_SUCCESS else TPM_E_HMAC_FAIL))).
  { unfold m.
    rewrite (CheckHMAC_auth1_run Hok buf no k command keySize key2 keySize2
               rs rest) by (rewrite ?HH, ?HN; assumption).
    unfold header_reads, block_reads, block_hmac, block_field,
      response_digest, reads, expected, paramDigest.
    rewrite HH, HN. fold S. cbn [app].
    replace (S - (20 + 1 + 20) + 20 + 1) with (S - 20) by lia.
    replace (S - (20 + 1 + 20) + 20) with (S - (1 + 20)) by lia.
    reflexivity. }
  assert (Hgen :
    trace m = reads (S - (20 + 1 + 20)) (S - (1 + 20)) (S - 20)
    /\ (result m = Done TPM_SUCCESS
        <-> expected (S - (20 + 1 + 20)) (S - (1 + 20))
            = slice buf (S - 20) 20)
    /\ (expected (S - (20 + 1 + 20)) (S - (1 + 20)) <> slice buf (S - 20) 20
        -> result m = Done TPM_E_HMAC_FAIL)).
  { rewrite Hm. unfold trace, result. cbn [fst snd].
    split; [reflexivity|].
    destruct (bytes_eqb _ _) eqn:Heq.
    - apply bytes_eqb_eq in Heq. split; [tauto | contradiction].
    - apply bytes_eqb_neq in Heq. split; [|reflexivity].
      split; [discriminate | contradiction]. }
  split; [exact Hgen|].
  intros HS. rewrite HS in Hgen. exact Hgen.
Qed.

Lemma CheckHMAC_auth1_offsets_witness :
  let m :=
    TSS_CheckHMAC (H := Tpm12.env) (Some Tpm12.resp1) Tpm12.command
      (Some Tpm12.nonceOdd) (Some Tpm12.key) 20 None 0 Tpm12.args1 in
  trace m
  = [ Read ObjResponse 0 2; Read ObjResponse 2 4; Read ObjResponse 6 4;
      Read ObjResponse 10 4; Read ObjResponse 20 8;
      Read ObjKey 0 20;
      Read ObjResponse 59 20;
      Read ObjNonceOdd 0 20;
      Read ObjResponse 79 1;
      Read ObjKey 0 20;
      Read ObjResponse 80 20 ]
  /\ result m = Done TPM_SUCCESS.
Proof.
  destruct (proj2 (@CheckHMAC_auth1_offsets Tpm12.env Tpm12_env_ok
                     Tpm12.resp1 Tpm12.nonceOdd Tpm12.key Tpm12.command 20
                     None 0 [(4, 10); (8, 20)] []
                     ltac:(concrete_side) ltac:(concrete_side)
                     ltac:(concrete_side) ltac:(concrete_side)
                     ltac:(concrete_side) ltac:(concrete_side)
                     ltac:(concrete_side) ltac:(concrete_side)
                     ltac:(concrete_side))
                  ltac:(closed_fact))
    as [Htrace [Hres _]].
  split; [exact Htrace|].
  apply Hres. closed_fact.
Defined.

(** ** TSS_CheckHMAC on AUTH2 responses *)

(** C4, as the code has it.  On an AUTH2-tagged response with key2 present
    the verifier checks the earlier block, 2*(nonceSize+1+digestSize) bytes
    from the end, against key and then the later block,
    nonceSize+1+digestSize bytes from the end, against key2, with the same
    paramDigest and nonceOdd; it returns TPM_SUCCESS exactly when both
    match, and the one code TPM_E_HMAC_FAIL when either does not, whichever
    block it was. *)
Theorem CheckHMAC_auth2_both_blocks {E : TlclEnv} (Hok : TlclEnvOk E)
    (buf no k k2 : bytes) (command keySize keySize2 : Z)
    (rs : list (Z * Z)) (rest : va_list) :
  10 <= Zlength' buf ->
  tag_of buf = TPM_TAG_RSP_AUTH2_COMMAND ->
  Forall u32_pair rs -> Forall (range_inside buf) rs ->
  2 * (TPM_NONCE_SIZE + 1 + TPM_HASH_SIZE) <= size_of buf <= Zlength' buf ->
  TPM_NONCE_SIZE <= Zlength' no ->
  0 <= keySize <= Zlength' k ->
  0 <= keySize2 <= Zlength' k2 ->
  let S := size_of buf in
  let block := TPM_NONCE_SIZE + 1 + TPM_HASH_SIZE in
  let paramDigest :=
    sha1 (slice buf 6 4 ++ ToTpmUint32 command
            ++ concat (map (selected buf) rs)) in
  let nonceOdd := slice no 0 TPM_NONCE_SIZE in
  let expected1 :=
    hmac_sha1 (slice k 0 keySize)
              (paramDigest ++ slice buf (S - 2 * block) TPM_NONCE_SIZE
                 ++ nonceOdd
                 ++ slice buf (S - 2 * block + TPM_NONCE_SIZE) 1) in
  let embedded1 :=
    slice buf (S - 2 * block + TPM_NONCE_SIZE + 1) TPM_HASH_SIZE in
  let expected2 :=
    hmac_sha1 (slice k2 0 keySize2)
              (paramDigest ++ slice buf (S - block) TPM_NONCE_SIZE
                 ++ nonceOdd
                 ++ slice buf (S - block + TPM_NONCE_SIZE) 1) in
  let embedded2 := slice buf (S - block + TPM_NONCE_SIZE + 1) TPM_HASH_SIZE in
  let r :=
    result (TSS_CheckHMAC (Some buf) command (Some no) (Some k) keySize
                          (Some k2) keySize2
                          (va_ranges rs ++ VaU32 0 :: rest)) in
  (r = Done TPM_SUCCESS <-> expected1 = embedded1 /\ expected2 = embedded2)
  /\ (expected1 = embedded1 -> expected2 <> embedded2 ->
      r = Done TPM_E_HMAC_FAIL)
  /\ (expected1 <> embedded1 -> r = Done TPM_E_HMAC_FAIL).
Proof.
  intros Hlen Htag Hu Hin Hsz Hno Hk Hk2 S block paramDigest nonceOdd
         expected1 embedded1 expected2 embedded2 r.
  assert (Hr : r = Done (if bytes_eqb expected1 embedded1
                         then if bytes_eqb expected2 embedded2
                              then TPM_SUCCESS else TPM_E_HMAC_FAIL
                         else TPM_E_HMAC_FAIL)).
  { unfold r.
    rewrite (CheckHMAC_auth2_run Hok buf no k k2 command keySize keySize2
               rs rest) by assumption.
    reflexivity. }
  rewrite Hr.
  destruct (bytes_eqb expected1 embedded1) eqn:H1;
    [apply bytes_eqb_eq in H1 | apply bytes_eqb_neq in H1];
    (destruct (bytes_eqb expected2 embedded2) eqn:H2;
     [apply bytes_eqb_eq in H2 | apply bytes_eqb_neq in H2]);
    repeat split; intros; try tauto; try congruence; try discriminate.
  all: match goal with Hc : _ /\ _ |- _ => destruct Hc; contradiction end.
Qed.

Lemma CheckHMAC_auth2_both_blocks_witness :
  result (TSS_CheckHMAC (H := Tpm12.env) (Some Tpm12.resp2_bad2)
            Tpm12.command (Some Tpm12.nonceOdd) (Some Tpm12.key) 20
            (Some Tpm12.key2) 20 Tpm12.args2)
  = Done TPM_E_HMAC_FAIL.
Proof.
  apply (proj1 (proj2 (@CheckHMAC_auth2_both_blocks Tpm12.env Tpm12_env_ok
                  Tpm12.resp2_bad2 Tpm12.nonceOdd Tpm12.key Tpm12.key2
                  Tpm12.command 20 20 [(4, 10); (4, 14)] []
                  ltac:(concrete_side) ltac:(concrete_side)
                  ltac:(concrete_side) ltac:(concrete_side)
                  ltac:(concrete_side) ltac:(concrete_side)
                  ltac:(concrete_side) ltac:(concrete_side))));
    closed_fact.
Defined.

(** C4 as stated fails: a mismatch in the second block (first block
    verifying) and a mismatch in the first block yield the same result, so
    the result attributes the failure to no session.  [resp2_bad2] has a
    verifying first block (bytes 18-58) and a replaced second HMAC field
    (bytes 80-99); [resp2_bad1] has a replaced first HMAC field (bytes
    39-58). *)
Lemma CheckHMAC_auth2_no_attribution :
  let call buf :=
    result (TSS_CheckHMAC (H := Tpm12.env) (Some buf) Tpm12.command
              (Some Tpm12.nonceOdd) (Some Tpm12.key) 20
              (Some Tpm12.key2) 20 Tpm12.args2) in
  let first_ok buf :=
    block_hmac (H := Tpm12.env) buf 18 Tpm12.nonceOdd Tpm12.key 20
               Tpm12.paramDigest2
    = block_field (H := Tpm12.env) buf 18 in
  let second_ok buf :=
    block_hmac (H := Tpm12.env) buf 59 Tpm12.nonceOdd Tpm12.key2 20
               Tpm12.paramDigest2
    = block_field (H := Tpm12.env) buf 59 in
  first_ok Tpm12.resp2_bad2 /\ ~ second_ok Tpm12.resp2_bad2
  /\ ~ first_ok Tpm12.resp2_bad1
  /\ call Tpm12.resp2_bad2 = Done TPM_E_HMAC_FAIL
  /\ call Tpm12.resp2_bad1 = Done TPM_E_HMAC_FAIL
  /\ call Tpm12.resp2 = Done TPM_SUCCESS.
Proof.
  cbv zeta. repeat split; closed_fact.
Qed.

(** ** TSS_CheckHMAC and ranges outside the response *)

(** C5, as the code has it.  The verifier checks no range.  When a
    selected range reaches beyond the response, or the trailer length
    (doubled for AUTH2) exceeds the declared total size, an AUTH1 or AUTH2
    call with its pointers present does address bytes outside the response:
    among the byte ranges the run addresses there is one of the response
    that starts before it or ends after it. *)
Theorem CheckHMAC_reads_outside {E : TlclEnv} (Hok : TlclEnvOk E)
    (buf no k : bytes) (command keySize : Z) (key2 : ptr) (keySize2 : Z)
    (rs : list (Z * Z)) (rest : va_list) :
  10 <= Zlength' buf ->
  tag_of buf = TPM_TAG_RSP_AUTH1_COMMAND
  \/ (tag_of buf = TPM_TAG_RSP_AUTH2_COMMAND /\ key2 <> None) ->
  Forall u32_pair rs ->
  0 <= keySize <= Zlength' k ->
  Exists (fun r => ~ range_inside buf r) rs
  \/ size_of buf < trailer_offset (tag_of buf) ->
  exists off len,
    In (ObjResponse, off, len)
       (addressed
          (TSS_CheckHMAC (Some buf) command (Some no) (Some k) keySize
                         key2 keySize2 (va_ranges rs ++ VaU32 0 :: rest)))
    /\ (off < 0 \/ Zlength' buf < off + len).
Proof.
  intros Hlen Htag Hu Hk Hbad.
  destruct (CheckHMAC_outside_run Hok buf no k command keySize key2 keySize2
              rs rest Hlen Htag Hu Hk Hbad) as [off [len [Hr Hout]]].
  exists off, len. split; [|exact Hout].
  now apply addressed_fault.
Qed.

Lemma CheckHMAC_reads_outside_witness :
  exists off len,
    In (ObjResponse, off, len)
       (addressed
          (TSS_CheckHMAC (H := Tpm12.env) (Some Tpm12.resp1_short)
             Tpm12.command (Some Tpm12.nonceOdd) (Some Tpm12.key) 20
             None 0 Tpm12.args1))
    /\ (off < 0 \/ Zlength' Tpm12.resp1_short < off + len).
Proof.
  exact (@CheckHMAC_reads_outside Tpm12.env Tpm12_env_ok
           Tpm12.resp1_short Tpm12.nonceOdd Tpm12.key Tpm12.command
           20 None 0 [(4, 10); (8, 20)] []
           ltac:(concrete_side)
           ltac:(left; closed_fact)
           ltac:(concrete_side) ltac:(concrete_side)
           ltac:(right; closed_fact)).
Defined.

(** C5 as stated fails: the call on [resp1] that selects 4 bytes at
    position 200 is not turned away; it addresses bytes 200-203 of the
    100-byte response.  The call on [resp1_short], whose declared size 10
    is less than the 41-byte trailer, addresses the 20 bytes that start 31
    bytes before the response. *)
Lemma CheckHMAC_no_range_check :
  result (TSS_CheckHMAC (H := Tpm12.env) (Some Tpm12.resp1) Tpm12.command
            (Some Tpm12.nonceOdd) (Some Tpm12.key) 20 None 0
            Tpm12.args_outside)
  = Fault (OutOfBounds ObjResponse 200 4)
  /\ result (TSS_CheckHMAC (H := Tpm12.env) (Some Tpm12.resp1_short)
               Tpm12.command (Some Tpm12.nonceOdd) (Some Tpm12.key) 20
               None 0 Tpm12.args1)
     = Fault (OutOfBounds ObjResponse (-31) 20)
  /\ In (ObjResponse, 200, 4)
        (addressed
           (TSS_CheckHMAC (H := Tpm12.env) (Some Tpm12.resp1)
              Tpm12.command (Some Tpm12.nonceOdd) (Some Tpm12.key) 20
              None 0 Tpm12.args_outside))
  /\ In (ObjResponse, -31, 20)
        (addressed
           (TSS_CheckHMAC (H := Tpm12.env) (Some Tpm12.resp1_short)
              Tpm12.command (Some Tpm12.nonceOdd) (Some Tpm12.key) 20
              None 0 Tpm12.args1)).
Proof.
  repeat split; try closed_fact; apply addressed_fault; closed_fact.
Qed.

(** ** The early exits of TSS_CheckHMAC *)

(** C6, as the code has it.  The result is dispatched on the 2-byte tag
    decoded from the start of the response: a NO_AUTH tag gives
    TPM_SUCCESS whatever follows the header and whatever the other
    arguments are; a tag that is none of NO_AUTH, AUTH1, AUTH2 gives
    TPM_E_HMAC_FAIL when nonceOdd and key are both present, and
    TPM_E_NULL_ARG when one of them is NULL, because the NULL test comes
    before the tag test. *)
Theorem CheckHMAC_tag_dispatch {E : TlclEnv} (buf : bytes) (command : Z)
    (nonceOdd key : ptr) (keySize : Z) (key2 : ptr) (keySize2 : Z)
    (argp : va_list) :
  6 <= Zlength' buf ->
  let r :=
    result (TSS_CheckHMAC (Some buf) command nonceOdd key keySize key2
                          keySize2 argp) in
  (tag_of buf = TPM_TAG_RSP_COMMAND -> r = Done TPM_SUCCESS)
  /\ (tag_of buf <> TPM_TAG_RSP_COMMAND ->
      tag_of buf <> TPM_TAG_RSP_AUTH1_COMMAND ->
      tag_of buf <> TPM_TAG_RSP_AUTH2_COMMAND ->
      (nonceOdd <> None /\ key <> None -> r = Done TPM_E_HMAC_FAIL)
      /\ (nonceOdd = None \/ key = None -> r = Done TPM_E_NULL_ARG)).
Proof.
  intros Hlen r. split.
  - intros Htag. unfold r.
    now rewrite (CheckHMAC_noauth_run buf command nonceOdd key keySize key2
                   keySize2 argp Hlen Htag).
  - intros H0 H1 H2. split.
    + intros [Hno Hk]. unfold r.
      destruct nonceOdd as [no|]; [|congruence].
      destruct key as [k|]; [|congruence].
      now rewrite (CheckHMAC_other_run buf no k command keySize key2
                     keySize2 argp Hlen H0 H1 H2).
    + intros Hnull. unfold r.
      now rewrite (CheckHMAC_null_run buf command nonceOdd key keySize key2
                     keySize2 argp Hlen H0 Hnull).
Qed.

Lemma CheckHMAC_tag_dispatch_witness :
  result (TSS_CheckHMAC (H := Tpm12.env) (Some Tpm12.resp_other)
            Tpm12.command (Some Tpm12.nonceOdd) (Some Tpm12.key) 20
            None 0 [])
  = Done TPM_E_HMAC_FAIL.
Proof.
  apply (proj1 (proj2 (@CheckHMAC_tag_dispatch Tpm12.env Tpm12.resp_other
                         Tpm12.command (Some Tpm12.nonceOdd)
                         (Some Tpm12.key) 20 None 0 []
                         ltac:(concrete_side))
                  ltac:(closed_fact) ltac:(closed_fact)
                  ltac:(closed_fact)));
    split; discriminate.
Defined.

(** C6 as stated fails: [resp_other] carries the tag 0x0000, none of the
    three, yet with a NULL key the verifier returns TPM_E_NULL_ARG, not
    TPM_E_HMAC_FAIL. *)
Lemma CheckHMAC_other_tag_null_key :
  tag_of Tpm12.resp_other = 0
  /\ result (TSS_CheckHMAC (H := Tpm12.env) (Some Tpm12.resp_other)
               Tpm12.command (Some Tpm12.nonceOdd) None 20 None 0 [])
     = Done TPM_E_NULL_ARG.
Proof.
  split; closed_fact.
Qed.

(** C7.  On a response whose tag decodes to AUTH2, a NULL key2 makes the
    verifier return TPM_E_NULL_ARG: the call ends after the two header
    reads, with a status and without any access through key2. *)
Theorem CheckHMAC_auth2_missing_key2 {E : TlclEnv} (Hok : TlclEnvOk E)
    (buf : bytes) (command : Z) (nonceOdd key : ptr)
    (keySize keySize2 : Z) (argp : va_list) :
  6 <= Zlength' buf ->
  tag_of buf = TPM_TAG_RSP_AUTH2_COMMAND ->
  TSS_CheckHMAC (Some buf) command nonceOdd key keySize None keySize2 argp
  = ([Read ObjResponse 0 2; Read ObjResponse 2 4], Done TPM_E_NULL_ARG).
Proof.
  intros Hlen Htag.
  destruct nonceOdd as [no|].
  - destruct key as [k|].
    + exact (CheckHMAC_nokey2_run Hok buf no k command keySize keySize2
               argp Hlen Htag).
    + apply CheckHMAC_null_run; [exact Hlen | | now right].
      rewrite Htag. apply not_eq_sym, (tag_noauth_auth2 E Hok).
  - apply CheckHMAC_null_run; [exact Hlen | | now left].
    rewrite Htag. apply not_eq_sym, (tag_noauth_auth2 E Hok).
Qed.

Lemma CheckHMAC_auth2_missing_key2_witness :
  TSS_CheckHMAC (H := Tpm12.env) (Some Tpm12.resp2) Tpm12.command
    (Some Tpm12.nonceOdd) (Some Tpm12.key) 20 None 0 Tpm12.args2
  = ([Read ObjResponse 0 2; Read ObjResponse 2 4], Done TPM_E_NULL_ARG).
Proof.
  apply (@CheckHMAC_auth2_missing_key2 Tpm12.env Tpm12_env_ok Tpm12.resp2
           Tpm12.command (Some Tpm12.nonceOdd) (Some Tpm12.key) 20 0
           Tpm12.args2 ltac:(concrete_side) ltac:(closed_fact)).
Defined.

(** C8, as the code has it.  When the response is present and its tag is
    not NO_AUTH, a NULL nonceOdd or a NULL key makes the verifier return
    TPM_E_NULL_ARG. *)
Theorem CheckHMAC_null_argument {E : TlclEnv} (buf : bytes) (command : Z)
    (nonceOdd key : ptr) (keySize : Z) (key2 : ptr) (keySize2 : Z)
    (argp : va_list) :
  6 <= Zlength' buf ->
  tag_of buf <> TPM_TAG_RSP_COMMAND ->
  nonceOdd = None \/ key = None ->
  result (TSS_CheckHMAC (Some buf) command nonceOdd key keySize key2
                        keySize2 argp)
  = Done TPM_E_NULL_ARG.
Proof.
  intros Hlen Htag Hnull.
  now rewrite (CheckHMAC_null_run buf command nonceOdd key keySize key2
                 keySize2 argp Hlen Htag Hnull).
Qed.

Lemma CheckHMAC_null_argument_witness :
  result (TSS_CheckHMAC (H := Tpm12.env) (Some Tpm12.resp1) Tpm12.command
            None (Some Tpm12.key) 20 None 0 Tpm12.args1)
  = Done TPM_E_NULL_ARG.
Proof.
  apply (@CheckHMAC_null_argument Tpm12.env Tpm12.resp1 Tpm12.command
           None (Some Tpm12.key) 20 None 0 Tpm12.args1
           ltac:(concrete_side) ltac:(closed_fact) ltac:(left; reflexivity)).
Defined.

(** C8 as stated fails: on [resp_noauth], whose tag is NO_AUTH, the
    verifier returns TPM_SUCCESS although nonceOdd and key are NULL. *)
Lemma CheckHMAC_noauth_null_key :
  result (TSS_CheckHMAC (H := Tpm12.env) (Some Tpm12.resp_noauth)
            Tpm12.command None None 0 None 0 [])
  = Done TPM_SUCCESS.
Proof.
  closed_fact.
Qed.

(** C9.  The tag and the size are read from the response, and the NO_AUTH
    exit is taken, before the NULL test: a response whose leading bytes
    decode to NO_AUTH yields TPM_SUCCESS after exactly these two reads even
    when nonceOdd or key is NULL, and a NULL response is dereferenced by the
    first read, so the call ends in a fault instead of reaching the test
    that would return TPM_E_NULL_ARG. *)
Theorem CheckHMAC_noauth_before_null_test {E : TlclEnv} (buf : bytes)
    (command : Z) (nonceOdd key : ptr) (keySize : Z) (key2 : ptr)
    (keySize2 : Z) (argp : va_list) :
  6 <= Zlength' buf ->
  tag_of buf = TPM_TAG_RSP_COMMAND ->
  TSS_CheckHMAC (Some buf) command nonceOdd key keySize key2 keySize2 argp
  = ([Read ObjResponse 0 2; Read ObjResponse 2 4], Done TPM_SUCCESS)
  /\ TSS_CheckHMAC None command nonceOdd key keySize key2 keySize2 argp
     = ([], Fault (NullDeref ObjResponse)).
Proof.
  intros Hlen Htag. split.
  - exact (CheckHMAC_noauth_run buf command nonceOdd key keySize key2
             keySize2 argp Hlen Htag).
  - reflexivity.
Qed.

Lemma CheckHMAC_noauth_before_null_test_witness :
  TSS_CheckHMAC (H := Tpm12.env) (Some Tpm12.resp_noauth) Tpm12.command
    None None 0 None 0 []
  = ([Read ObjResponse 0 2; Read ObjResponse 2 4], Done TPM_SUCCESS)
  /\ TSS_CheckHMAC (H := Tpm12.env) None Tpm12.command None None 0 None 0 []
     = ([], Fault (NullDeref ObjResponse)).
Proof.
  apply (@CheckHMAC_noauth_before_null_test Tpm12.env Tpm12.resp_noauth
           Tpm12.command None None 0 None 0 []
           ltac:(concrete_side) ltac:(closed_fact)).
Defined.

(** ** TSS_AuthHMAC *)

(** C2, as the code has it.  When both nonces are present and no entry
    before the sentinel carries a NULL data pointer (and key, nonces, data
    and digest designate objects of the sizes the call gives), the function
    returns TPM_SUCCESS and stores in the output buffer
    HMAC (key, paramDigest ‖ nonce1 ‖ nonce2 ‖ authBool), where paramDigest
    is the plain hash of exactly the supplied byte strings in the order
    given, with no ordinal bytes in front. *)
Theorem AuthHMAC_digest {E : TlclEnv} (Hok : TlclEnvOk E)
    (dg k n1 n2 : bytes) (keySize : Z) (authBool : uint8)
    (es : list (Z * ptr)) (rest : va_list) :
  Forall entry_ok es ->
  0 <= keySize <= Zlength' k ->
  TPM_NONCE_SIZE <= Zlength' n1 ->
  TPM_NONCE_SIZE <= Zlength' n2 ->
  TPM_HASH_SIZE <= Zlength' dg ->
  let paramDigest := sha1 (concat (map entry_bytes es)) in
  let authHmac :=
    hmac_sha1 (slice k 0 keySize)
              (paramDigest ++ slice n1 0 TPM_NONCE_SIZE
                 ++ slice n2 0 TPM_NONCE_SIZE ++ [authBool]) in
  result (TSS_AuthHMAC (Some dg) (Some k) keySize (Some n1) (Some n2)
                       authBool (va_entries es ++ VaU32 0 :: rest))
  = Done (TPM_SUCCESS,
          Some (authHmac ++ skipn (Z.to_nat TPM_HASH_SIZE) dg))
  /\ Zlength' authHmac = TPM_HASH_SIZE.
Proof.
  intros Hes Hk Hn1 Hn2 Hdg paramDigest authHmac. split.
  - now rewrite (AuthHMAC_run Hok dg k n1 n2 keySize authBool es rest).
  - apply (hmac_length E Hok).
Qed.

Lemma AuthHMAC_digest_witness :
  result (TSS_AuthHMAC (H := Tpm12.env) (Some Tpm12.digest0)
            (Some Tpm12.key) 20 (Some Tpm12.nonceOdd) (Some Tpm12.evenA)
            Byte.x01 Tpm12.auth_args)
  = Done (TPM_SUCCESS,
          Some (Tpm12.sum_hmac Tpm12.key
                  (Tpm12.sum_sha1 (Tpm12.dataA ++ Tpm12.dataB)
                     ++ Tpm12.nonceOdd ++ Tpm12.evenA ++ [Byte.x01]))).
Proof.
  refine (eq_trans
            (proj1 (@AuthHMAC_digest Tpm12.env Tpm12_env_ok Tpm12.digest0
                      Tpm12.key Tpm12.nonceOdd Tpm12.evenA 20 Byte.x01
                      [(4, Some Tpm12.dataA); (6, Some Tpm12.dataB)] []
                      ltac:(concrete_side) ltac:(concrete_side)
                      ltac:(concrete_side) ltac:(concrete_side)
                      ltac:(concrete_side))) _).
  closed_fact.
Defined.

(** C2 as stated fails: both nonces are present, yet the call whose second
    entry (size 6) has a NULL data pointer returns TPM_E_NULL_ARG and
    stores nothing. *)
Lemma AuthHMAC_null_data_not_success :
  result (TSS_AuthHMAC (H := Tpm12.env) (Some Tpm12.digest0)
            (Some Tpm12.key) 20 (Some Tpm12.nonceOdd) (Some Tpm12.evenA)
            Byte.x01 Tpm12.auth_args_null)
  = Done (TPM_E_NULL_ARG, Some Tpm12.digest0).
Proof.
  closed_fact.
Qed.

(** C10.  With both nonces present, if an entry before the sentinel
    carries a NULL data pointer (the entries in front of it being
    readable), the function returns TPM_E_NULL_ARG; up to then it has only
    read the data of the earlier entries, so neither the key nor a nonce
    has been read for an HMAC, and the caller's digest buffer is as it
    was. *)
Theorem AuthHMAC_null_data {E : TlclEnv} (digest key : ptr) (keySize : Z)
    (n1 n2 : bytes) (authBool : uint8) (es : list (Z * ptr)) (sz : Z)
    (rest : va_list) :
  Forall entry_ok es -> 0 < sz < 2 ^ 32 ->
  let m :=
    TSS_AuthHMAC digest key keySize (Some n1) (Some n2) authBool
                 (va_entries es ++ VaU32 sz :: VaPtr None :: rest) in
  result m = Done (TPM_E_NULL_ARG, digest)
  /\ Forall (fun a => exists len, a = Read ObjArgData 0 len) (trace m).
Proof.
  intros Hes Hsz m. unfold m.
  rewrite (AuthHMAC_null_run digest key keySize n1 n2 authBool es sz rest
             Hes Hsz).
  split; [reflexivity|].
  unfold trace. cbn [fst]. apply Forall_forall.
  intros a Ha. apply in_map_iff in Ha. destruct Ha as [e [<- _]].
  now exists (fst e).
Qed.

Lemma AuthHMAC_null_data_witness :
  let m :=
    TSS_AuthHMAC (H := Tpm12.env) (Some Tpm12.digest0) (Some Tpm12.key) 20
      (Some Tpm12.nonceOdd) (Some Tpm12.evenA) Byte.x01
      Tpm12.auth_args_null in
  result m = Done (TPM_E_NULL_ARG, Some Tpm12.digest0)
  /\ Forall (fun a => exists len, a = Read ObjArgData 0 len) (trace m).
Proof.
  apply (@AuthHMAC_null_data Tpm12.env (Some Tpm12.digest0)
           (Some Tpm12.key) 20 Tpm12.nonceOdd Tpm12.evenA Byte.x01
           [(4, Some Tpm12.dataA)] 6 [VaU32 0]
           ltac:(concrete_side) ltac:(concrete_side)).
Defined.

(** * Further properties of the two functions *)

(** ** Helper facts *)

Lemma read_cases (o : obj) (b : bytes) (off len : Z) :
  read o (Some b) off len = ([Read o off len], Done (slice b off len))
  \/ read o (Some b) off len = ([], Fault (OutOfBounds o off len)).
Proof.
  unfold read. destruct (in_bounds b off len); [now left | now right].
Qed.

Lemma bind_ext {A B} (m : M A) (k k' : A -> M B) :
  (forall a, k a = k' a) -> bind m k = bind m k'.
Proof.
  intros Hk. destruct m as [l [a|f]]; simpl; [now rewrite Hk | reflexivity].
Qed.

Lemma reads_only_read (o : obj) (p : ptr) (off len : Z) :
  reads_only (trace (read o p off len)).
Proof.
  unfold read, reads_only, trace.
  destruct p as [b|]; [|apply Forall_nil].
  destruct (in_bounds b off len); cbn [fst fail].
  - apply Forall_cons; [exact I | apply Forall_nil].
  - apply Forall_nil.
Qed.

Lemma reads_only_ret {A} (a : A) : reads_only (trace (ret a)).
Proof. apply Forall_nil. Qed.

Lemma reads_only_fail {A} (f : fault) : reads_only (trace (@fail A f)).
Proof. apply Forall_nil. Qed.

Lemma reads_only_bind {A B} (m : M A) (k : A -> M B) :
  reads_only (trace m) -> (forall a, reads_only (trace (k a))) ->
  reads_only (trace (bind m k)).
Proof.
  intros Hm Hk. destruct m as [l [a|f]]; unfold trace in *; simpl in *.
  - specialize (Hk a). destruct (k a) as [l' r]. simpl in *.
    apply Forall_app. now split.
  - exact Hm.
Qed.

Ltac reads_step :=
  first
    [ apply reads_only_ret
    | apply reads_only_fail
    | apply reads_only_read
    | apply reads_only_bind; [|intros ?]
    | match goal with
      | |- reads_only (trace (if ?c then _ else _)) => destruct c
      end ].

Lemma check_hash_args_reads (response : ptr) (n : nat) :
  forall (argp : va_list) (ctx : SHA1_CTX),
    (length argp < n)%nat ->
    reads_only (trace (check_hash_args response argp ctx)).
Proof.
  induction n as [|n IH]; intros argp ctx Hn; [inversion Hn|].
  destruct argp as [|[a|p] argp1]; cbn [check_hash_args];
    try apply reads_only_fail.
  destruct (wrap32 a =? 0); [apply reads_only_ret|].
  destruct argp1 as [|[pos|p] argp2]; try apply reads_only_fail.
  apply reads_only_bind; [apply reads_only_read|].
  intros d. apply IH. simpl in Hn. lia.
Qed.

Lemma auth_block_reads `{TlclEnv} (response : ptr) (size offset : Z)
    (nonceOdd : ptr) (ko : obj) (key : ptr) (keySize : Z) (pd : bytes) :
  reads_only (trace (auth_block response size offset nonceOdd ko key keySize
                                pd)).
Proof.
  unfold auth_block, hmac_starts, hmac_finish, memcmp_ne.
  cbv zeta. repeat reads_step.
Qed.

(** ** TSS_CheckHMAC stores nothing *)

(** X1.  Whatever its arguments, and however the call ends, TSS_CheckHMAC
    performs no store: every access of the run is a read. *)
Theorem CheckHMAC_reads_only {E : TlclEnv} (response : ptr) (command : Z)
    (nonceOdd key : ptr) (keySize : Z) (key2 : ptr) (keySize2 : Z)
    (argp : va_list) :
  reads_only (trace (TSS_CheckHMAC response command nonceOdd key keySize
                                   key2 keySize2 argp)).
Proof.
  unfold TSS_CheckHMAC. cbv zeta.
  repeat first
    [ apply reads_only_ret
    | apply reads_only_read
    | apply auth_block_reads
    | match goal with
      | |- reads_only (trace (check_hash_args _ ?l _)) =>
          apply (check_hash_args_reads _ (S (length l))); lia
      | |- reads_only (trace (if ?c then _ else _)) => destruct c
      end
    | apply reads_only_bind; [|intros ?] ].
Qed.

(** ** TSS_AuthHMAC stores only when it succeeds *)





(** X3.  With either nonce NULL, TSS_AuthHMAC returns TPM_E_NULL_ARG at
    once: it makes no access at all and leaves the digest buffer as it was,
    whatever the key, the digest pointer and the variadic list are (a NULL
    key, or a list without sentinel, included). *)
Theorem AuthHMAC_missing_nonce {E : TlclEnv} (digest key : ptr)
    (keySize : Z) (nonce1 nonce2 : ptr) (authBool : uint8)
    (argp : va_list) :
  nonce1 = None \/ nonce2 = None ->
  TSS_AuthHMAC digest key keySize nonce1 nonce2 authBool argp
  = ([], Done (TPM_E_NULL_ARG, digest)).
Proof.
  intros [-> | ->]; unfold TSS_AuthHMAC; cbn [is_null orb];
    [reflexivity|].
  now rewrite orb_true_r.
Qed.

Lemma AuthHMAC_missing_nonce_witness :
  TSS_AuthHMAC (H := Tpm12.env) None None 20 (Some Tpm12.nonceOdd) None
    Byte.x01 [VaU32 4; VaPtr None]
  = ([], Done (TPM_E_NULL_ARG, None)).
Proof.
  apply (@AuthHMAC_missing_nonce Tpm12.env None None 20
           (Some Tpm12.nonceOdd) None Byte.x01 [VaU32 4; VaPtr None]
           ltac:(right; reflexivity)).
Defined.

(** ** Nothing after the sentinel is looked at *)

Lemma check_hash_args_sentinel (response : ptr) (rs : list (Z * Z))
    (rest rest' : va_list) (ctx : SHA1_CTX) :
  check_hash_args response (va_ranges rs ++ VaU32 0 :: rest) ctx
  = check_hash_args response (va_ranges rs ++ VaU32 0 :: rest') ctx.
Proof.
  revert ctx. induction rs as [|[sz pos] rs IH]; intros ctx.
  - reflexivity.
  - cbn [va_ranges flat_map app fst snd check_hash_args].
    fold (va_ranges rs).
    destruct (wrap32 sz =? 0); [reflexivity|].
    apply bind_ext. intros d. apply IH.
Qed.

Lemma auth_hash_args_sentinel (es : list (Z * ptr)) (rest rest' : va_list)
    (ctx : SHA1_CTX) :
  auth_hash_args (va_entries es ++ VaU32 0 :: rest) ctx
  = auth_hash_args (va_entries es ++ VaU32 0 :: rest') ctx.
Proof.
  revert ctx. induction es as [|[sz p] es IH]; intros ctx.
  - reflexivity.
  - cbn [va_entries flat_map app fst snd auth_hash_args].
    fold (va_entries es).
    destruct (wrap32 sz =? 0); [reflexivity|].
    destruct (is_null p); [reflexivity|].
    apply bind_ext. intros d. apply IH.
Qed.

(** X4.  TSS_CheckHMAC stops pulling variadic arguments at the first zero
    size: whatever follows the sentinel in the list has no influence on
    the run, neither on its result nor on its accesses.  This holds for
    every response pointer, tag and list of (size, position) pairs in
    front of the sentinel, valid or not. *)
Theorem CheckHMAC_stops_at_sentinel {E : TlclEnv} (response : ptr)
    (command : Z) (nonceOdd key : ptr) (keySize : Z) (key2 : ptr)
    (keySize2 : Z) (rs : list (Z * Z)) (rest rest' : va_list) :
  TSS_CheckHMAC response command nonceOdd key keySize key2 keySize2
                (va_ranges rs ++ VaU32 0 :: rest)
  = TSS_CheckHMAC response command nonceOdd key keySize key2 keySize2
                  (va_ranges rs ++ VaU32 0 :: rest').
Proof.
  unfold TSS_CheckHMAC. cbv zeta.
  apply bind_ext. intros tagb. apply bind_ext. intros sizeb.
  repeat match goal with
         | |- (if ?c then _ else _) = (if ?c then _ else _) => destruct c
         end; try reflexivity.
  all: apply bind_ext; intros rc.
  all: now rewrite (check_hash_args_sentinel response rs rest rest').
Qed.

(** X5.  TSS_AuthHMAC stops pulling variadic arguments at the first zero
    size: whatever follows the sentinel has no influence on the run, for
    every list of (size, data) entries in front of it, NULL data pointers
    included. *)
Theorem AuthHMAC_stops_at_sentinel {E : TlclEnv} (digest key : ptr)
    (keySize : Z) (nonce1 nonce2 : ptr) (authBool : uint8)
    (es : list (Z * ptr)) (rest rest' : va_list) :
  TSS_AuthHMAC digest key keySize nonce1 nonce2 authBool
               (va_entries es ++ VaU32 0 :: rest)
  = TSS_AuthHMAC digest key keySize nonce1 nonce2 authBool
                 (va_entries es ++ VaU32 0 :: rest').
Proof.
  unfold TSS_AuthHMAC. cbv zeta.
  destruct (is_null nonce1 || is_null nonce2); [reflexivity|].
  now rewrite (auth_hash_args_sentinel es rest rest').
Qed.

(** ** The second key is used for AUTH2 responses only *)

(** X6.  Unless the response carries the AUTH2 tag, [key2] and [keySize2]
    have no influence on a run of TSS_CheckHMAC: the same call with any
    other second key (NULL included) has the same accesses and the same
    outcome. *)
Theorem CheckHMAC_key2_unused {E : TlclEnv} (buf : bytes) (command : Z)
    (nonceOdd key : ptr) (keySize : Z) (key2 key2' : ptr)
    (keySize2 keySize2' : Z) (argp : va_list) :
  tag_of buf <> TPM_TAG_RSP_AUTH2_COMMAND ->
  TSS_CheckHMAC (Some buf) command nonceOdd key keySize key2 keySize2 argp
  = TSS_CheckHMAC (Some buf) command nonceOdd key keySize key2' keySize2'
                  argp.
Proof.
  intros Htag. apply Z.eqb_neq in Htag.
  unfold TSS_CheckHMAC, TPM_U16_SIZE, TPM_U32_SIZE. cbv zeta.
  destruct (read_cases ObjResponse buf 0 2) as [Hr | Hr]; rewrite Hr;
    [|reflexivity].
  rewrite !bind_done. cbv beta. fold (tag_of buf).
  rewrite Htag. cbn [andb]. reflexivity.
Qed.

Lemma CheckHMAC_key2_unused_witness :
  TSS_CheckHMAC (H := Tpm12.env) (Some Tpm12.resp1) Tpm12.command
    (Some Tpm12.nonceOdd) (Some Tpm12.key) 20 (Some Tpm12.key2) 20
    Tpm12.args1
  = TSS_CheckHMAC (H := Tpm12.env) (Some Tpm12.resp1) Tpm12.command
      (Some Tpm12.nonceOdd) (Some Tpm12.key) 20 None 0 Tpm12.args1.
Proof.
  apply (@CheckHMAC_key2_unused Tpm12.env Tpm12.resp1 Tpm12.command
           (Some Tpm12.nonceOdd) (Some Tpm12.key) 20 (Some Tpm12.key2) None
           20 0 Tpm12.args1 ltac:(closed_fact)).
Defined.

(** ** A failing first block ends an AUTH2 verification *)

Ltac run_header :=
  unfold TSS_CheckHMAC, TPM_U16_SIZE, TPM_U32_SIZE;
  rewrite read_ok by lia; run_bind;
  rewrite read_ok by lia; run_bind;
  cbv zeta;
  match goal with
  | |- context [slice ?b 0 2] => fold (tag_of b); fold (size_of b)
  end.

Ltac tag_neq H :=
  first [ rewrite (proj2 (Z.eqb_neq _ _) H)
        | rewrite (proj2 (Z.eqb_neq _ _) (not_eq_sym H)) ].

(** X7.  On an AUTH2 response whose first block does not verify,
    TSS_CheckHMAC returns TPM_E_HMAC_FAIL right after the first comparison:
    the run makes no access through [key2] and reads nothing of the second
    block, so neither [keySize2] nor the contents (or presence inside the
    response object) of the second block matter. *)
Theorem CheckHMAC_auth2_first_block_fails {E : TlclEnv} (Hok : TlclEnvOk E)
    (buf no k k2 : bytes) (command keySize keySize2 : Z)
    (rs : list (Z * Z)) (rest : va_list) :
  let block := TPM_NONCE_SIZE + 1 + TPM_HASH_SIZE in
  let start1 := size_of buf - 2 * block in
  10 <= Zlength' buf ->
  tag_of buf = TPM_TAG_RSP_AUTH2_COMMAND ->
  Forall u32_pair rs -> Forall (range_inside buf) rs ->
  0 <= start1 -> start1 + block <= Zlength' buf ->
  TPM_NONCE_SIZE <= Zlength' no ->
  0 <= keySize <= Zlength' k ->
  block_hmac buf start1 no k keySize (response_digest buf command rs)
  <> block_field buf start1 ->
  TSS_CheckHMAC (Some buf) command (Some no) (Some k) keySize (Some k2)
                keySize2 (va_ranges rs ++ VaU32 0 :: rest)
  = ([Read ObjResponse 0 2; Read ObjResponse 2 4; Read ObjResponse 6 4]
       ++ range_reads rs
       ++ [ Read ObjKey 0 keySize;
            Read ObjResponse start1 TPM_NONCE_SIZE;
            Read ObjNonceOdd 0 TPM_NONCE_SIZE;
            Read ObjResponse (start1 + TPM_NONCE_SIZE) 1;
            Read ObjKey 0 keySize;
            Read ObjResponse (start1 + TPM_NONCE_SIZE + 1) TPM_HASH_SIZE ],
     Done TPM_E_HMAC_FAIL).
Proof.
  intros block start1 Hlen Htag Hu Hin H0 Hend Hno Hk Hne.
  pose proof (hash_size_nonneg E Hok) as HH.
  pose proof (nonce_size_nonneg E Hok) as HN.
  run_header. rewrite Htag.
  tag_neq (tag_noauth_auth2 E Hok). tag_neq (tag_auth1_auth2 E Hok).
  rewrite Z.eqb_refl. cbn [is_null orb negb andb].
  change (2 + 4) with 6.
  rewrite read_ok by lia. run_bind.
  unfold sha1_starts, sha1_update, sha1_finish. cbn [app].
  rewrite check_hash_args_run by assumption. run_bind.
  rewrite (offset_auth2 Hok).
  rewrite <- app_assoc.
  rewrite (auth_block_run Hok) by (fold block; fold start1; lia).
  run_bind.
  fold (response_digest buf command rs). fold block. fold start1.
  apply bytes_eqb_neq in Hne. rewrite Hne. cbn [negb].
  unfold ret. rewrite !after_pair. cbn [app]. rewrite ?app_nil_r.
  reflexivity.
Qed.

Lemma CheckHMAC_auth2_first_block_fails_witness :
  TSS_CheckHMAC (H := Tpm12.env) (Some Tpm12.resp2_bad1) Tpm12.command
    (Some Tpm12.nonceOdd) (Some Tpm12.key) 20 (Some Tpm12.key2) 5000
    Tpm12.args2
  = ([ Read ObjResponse 0 2; Read ObjResponse 2 4; Read ObjResponse 6 4;
       Read ObjResponse 10 4; Read ObjResponse 14 4;
       Read ObjKey 0 20; Read ObjResponse 18 20; Read ObjNonceOdd 0 20;
       Read ObjResponse 38 1; Read ObjKey 0 20; Read ObjResponse 39 20 ],
     Done TPM_E_HMAC_FAIL).
Proof.
  apply (@CheckHMAC_auth2_first_block_fails Tpm12.env Tpm12_env_ok
           Tpm12.resp2_bad1 Tpm12.nonceOdd Tpm12.key Tpm12.key2
           Tpm12.command 20 5000 [(4, 10); (4, 14)] []
           ltac:(concrete_side) ltac:(concrete_side)
           ltac:(concrete_side) ltac:(concrete_side)
           ltac:(concrete_side) ltac:(concrete_side)
           ltac:(concrete_side) ltac:(concrete_side)
           ltac:(closed_fact)).
Defined.

(** ** What TSS_AuthHMAC computes is what TSS_CheckHMAC accepts *)

Lemma Zlength_skipn (b : bytes) (pos : Z) :
  0 <= pos <= Zlength' b ->
  Zlength' (skipn (Z.to_nat pos) b) = Zlength' b - pos.
Proof.
  unfold Zlength'. intros Hpos. rewrite length_skipn. lia.
Qed.

Lemma slice_skipn (b : bytes) (pos len : Z) :
  slice (skipn (Z.to_nat pos) b) 0 len = slice b pos len.
Proof. reflexivity. Qed.

Lemma response_entries_ok (buf : bytes) (command : Z) (rs : list (Z * Z)) :
  10 <= Zlength' buf ->
  Forall u32_pair rs -> Forall (range_inside buf) rs ->
  Forall entry_ok (response_entries buf command rs).
Proof.
  intros Hlen Hu Hin. unfold response_entries.
  apply Forall_cons.
  { split; cbn [fst snd ptr_at]; [lia|]. rewrite Zlength_skipn; lia. }
  apply Forall_cons.
  { split; cbn [fst snd]; [lia|]. unfold Zlength', ToTpmUint32. simpl. lia. }
  induction rs as [|[sz pos] rs IH]; [apply Forall_nil|].
  inversion Hu as [|? ? [Hsz Hpos] Hu']; subst.
  inversion Hin as [|? ? Hr Hin']; subst.
  unfold range_inside in Hr. cbn [fst snd] in Hsz, Hpos, Hr.
  cbn [map]. apply Forall_cons; [|now apply IH].
  split; cbn [fst snd ptr_at]; [lia|]. rewrite Zlength_skipn; lia.
Qed.

Lemma response_entries_bytes (buf : bytes) (command : Z)
    (rs : list (Z * Z)) :
  concat (map entry_bytes (response_entries buf command rs))
  = slice buf 6 4 ++ ToTpmUint32 command ++ concat (map (selected buf) rs).
Proof.
  unfold response_entries. cbn [map concat].
  f_equal. f_equal.
  induction rs as [|[sz pos] rs IH]; [reflexivity|].
  cbn [map concat]. now rewrite IH.
Qed.

(** X8.  The two functions agree on an AUTH1 response.  Call TSS_AuthHMAC
    with the response's even nonce as [nonce1], the caller's odd nonce as
    [nonce2], the response's continue flag as [authBool], and as data the
    return code, the big-endian ordinal and the selected ranges: it
    succeeds, and TSS_CheckHMAC on that response returns TPM_SUCCESS
    exactly when the HMAC field of the trailer holds the digest
    TSS_AuthHMAC stored. *)
Theorem AuthHMAC_matches_CheckHMAC {E : TlclEnv} (Hok : TlclEnvOk E)
    (buf no k dg : bytes) (command keySize : Z) (key2 : ptr) (keySize2 : Z)
    (authBool : uint8) (rs : list (Z * Z)) (rest rest' : va_list) :
  let start := size_of buf - (TPM_NONCE_SIZE + 1 + TPM_HASH_SIZE) in
  10 <= Zlength' buf ->
  tag_of buf = TPM_TAG_RSP_AUTH1_COMMAND ->
  Forall u32_pair rs -> Forall (range_inside buf) rs ->
  0 <= start -> size_of buf <= Zlength' buf ->
  TPM_NONCE_SIZE <= Zlength' no ->
  0 <= keySize <= Zlength' k ->
  TPM_HASH_SIZE <= Zlength' dg ->
  slice buf (start + TPM_NONCE_SIZE) 1 = [authBool] ->
  exists authHmac,
    Zlength' authHmac = TPM_HASH_SIZE
    /\ result (TSS_AuthHMAC (Some dg) (Some k) keySize (ptr_at buf start)
                 (Some no) authBool
                 (va_entries (response_entries buf command rs)
                    ++ VaU32 0 :: rest'))
       = Done (TPM_SUCCESS,
               Some (authHmac ++ skipn (Z.to_nat TPM_HASH_SIZE) dg))
    /\ (result (TSS_CheckHMAC (Some buf) command (Some no) (Some k) keySize
                  key2 keySize2 (va_ranges rs ++ VaU32 0 :: rest))
        = Done TPM_SUCCESS
        <-> slice buf (start + TPM_NONCE_SIZE + 1) TPM_HASH_SIZE
            = authHmac).
Proof.
  intros start Hlen Htag Hu Hin H0 Hsz Hno Hk Hdg Hflag.
  pose proof (hash_size_nonneg E Hok) as HH.
  pose proof (nonce_size_nonneg E Hok) as HN.
  exists (block_hmac buf start no k keySize
            (response_digest buf command rs)).
  split; [apply (hmac_length E Hok)|]. split.
  - assert (Hn1 : TPM_NONCE_SIZE
                  <= Zlength' (skipn (Z.to_nat start) buf))
      by (rewrite Zlength_skipn; lia).
    refine (eq_trans
              (f_equal snd
                 (AuthHMAC_run Hok dg k (skipn (Z.to_nat start) buf) no
                    keySize authBool (response_entries buf command rs)
                    rest' (response_entries_ok buf command rs Hlen Hu Hin)
                    Hk Hn1 Hno Hdg)) _).
    cbn [snd].
    rewrite response_entries_bytes, slice_skipn, <- Hflag.
    reflexivity.
  - rewrite (CheckHMAC_auth1_run Hok buf no k command keySize key2
               keySize2 rs rest) by (assumption || (fold start; lia)).
    unfold result. cbn [snd]. fold start.
    unfold block_field.
    destruct (bytes_eqb _ _) eqn:Heq.
    + apply bytes_eqb_eq in Heq. split; [now intros _ | reflexivity].
    + apply bytes_eqb_neq in Heq. split; [discriminate|].
      intros Hc. elim Heq. now symmetry.
Qed.

Lemma AuthHMAC_matches_CheckHMAC_witness :
  exists authHmac,
    Zlength' authHmac = 20
    /\ result (TSS_AuthHMAC (H := Tpm12.env) (Some Tpm12.digest0)
                 (Some Tpm12.key) 20 (ptr_at Tpm12.resp1 59)
                 (Some Tpm12.nonceOdd) Byte.x01
                 (va_entries
                    (response_entries Tpm12.resp1 Tpm12.command
                                      [(4, 10); (8, 20)])
                    ++ [VaU32 0]))
       = Done (TPM_SUCCESS, Some (authHmac ++ skipn 20 Tpm12.digest0))
    /\ (result (TSS_CheckHMAC (H := Tpm12.env) (Some Tpm12.resp1)
                  Tpm12.command (Some Tpm12.nonceOdd) (Some Tpm12.key) 20
                  None 0 Tpm12.args1)
        = Done TPM_SUCCESS
        <-> slice Tpm12.resp1 80 20 = authHmac).
Proof.
  exact (@AuthHMAC_matches_CheckHMAC Tpm12.env Tpm12_env_ok
           Tpm12.resp1 Tpm12.nonceOdd Tpm12.key Tpm12.digest0
           Tpm12.command 20 None 0 Byte.x01 [(4, 10); (8, 20)] [] []
           ltac:(concrete_side) ltac:(concrete_side)
           ltac:(concrete_side) ltac:(concrete_side)
           ltac:(concrete_side) ltac:(concrete_side)
           ltac:(concrete_side) ltac:(concrete_side)
           ltac:(concrete_side) ltac:(closed_fact)).
Defined.

(** ** The declared size is trusted *)

Lemma auth_block_beyond {E : TlclEnv} (Hok : TlclEnvOk E) (buf : bytes)
    (size offset : Z) (no : bytes) (ko : obj) (k : bytes) (keySize : Z)
    (pd : bytes) :
  offset = TPM_NONCE_SIZE + 1 + TPM_HASH_SIZE ->
  0 <= size - offset -> Zlength' buf < size ->
  TPM_NONCE_SIZE <= Zlength' no ->
  0 <= keySize <= Zlength' k ->
  exists off len,
    result (auth_block (Some buf) size offset (Some no) ko (Some k) keySize
                       pd)
    = Fault (OutOfBounds ObjResponse off len)
    /\ Zlength' buf < off + len.
Proof.
  intros Hoff H0 Hbig Hno Hk.
  pose proof (hash_size_nonneg E Hok) as HH.
  pose proof (nonce_size_nonneg E Hok) as HN.
  unfold auth_block.
  rewrite hmac_starts_ok by lia. run_bind. rewrite result_after.
  destruct (Z_le_gt_dec (size - offset + TPM_NONCE_SIZE) (Zlength' buf))
    as [Hle1 | Hgt1].
  2:{ rewrite read_oob by lia. rewrite bind_fault.
      eexists _, _. split; [reflexivity | lia]. }
  rewrite read_ok by lia. run_bind. rewrite result_after.
  rewrite read_ok by lia. run_bind. rewrite result_after.
  destruct (Z_le_gt_dec (size - offset + TPM_NONCE_SIZE + 1) (Zlength' buf))
    as [Hle2 | Hgt2].
  2:{ rewrite read_oob by lia. rewrite bind_fault.
      eexists _, _. split; [reflexivity | lia]. }
  rewrite read_ok by lia. run_bind. rewrite result_after.
  rewrite hmac_finish_ok by lia. run_bind. rewrite result_after.
  unfold memcmp_ne. rewrite read_oob by lia. rewrite bind_fault.
  eexists _, _. split; [reflexivity | lia].
Qed.

(** X9.  TSS_CheckHMAC locates the trailer from the size field of the
    response alone and does not compare it with anything: on an AUTH1
    response whose declared size exceeds the object the response pointer
    designates (everything else about the call being in order), the run
    addresses bytes beyond the end of the response. *)
Theorem CheckHMAC_size_beyond_response {E : TlclEnv} (Hok : TlclEnvOk E)
    (buf no k : bytes) (command keySize : Z) (key2 : ptr) (keySize2 : Z)
    (rs : list (Z * Z)) (rest : va_list) :
  10 <= Zlength' buf ->
  tag_of buf = TPM_TAG_RSP_AUTH1_COMMAND ->
  Forall u32_pair rs -> Forall (range_inside buf) rs ->
  TPM_NONCE_SIZE + 1 + TPM_HASH_SIZE <= size_of buf ->
  Zlength' buf < size_of buf ->
  TPM_NONCE_SIZE <= Zlength' no ->
  0 <= keySize <= Zlength' k ->
  exists off len,
    In (ObjResponse, off, len)
       (addressed
          (TSS_CheckHMAC (Some buf) command (Some no) (Some k) keySize
                         key2 keySize2 (va_ranges rs ++ VaU32 0 :: rest)))
    /\ Zlength' buf < off + len.
Proof.
  intros Hlen Htag Hu Hin Hsz Hbig Hno Hk.
  cut (exists off len,
         result (TSS_CheckHMAC (Some buf) command (Some no) (Some k) keySize
                   key2 keySize2 (va_ranges rs ++ VaU32 0 :: rest))
         = Fault (OutOfBounds ObjResponse off len)
         /\ Zlength' buf < off + len).
  { intros [off [len [Hr Hout]]]. exists off, len.
    split; [now apply addressed_fault | exact Hout]. }
  run_header. rewrite Htag.
  tag_neq (tag_noauth_auth1 E Hok). tag_neq (tag_auth1_auth2 E Hok).
  rewrite Z.eqb_refl. cbn [is_null orb negb andb].
  change (2 + 4) with 6. rewrite !result_after.
  rewrite read_ok by lia. run_bind. rewrite result_after.
  unfold sha1_starts, sha1_update, sha1_finish. cbn [app].
  rewrite check_hash_args_run by assumption. run_bind.
  rewrite result_after. rewrite (offset_auth1 Hok).
  destruct (auth_block_beyond Hok buf (size_of buf)
              (TPM_NONCE_SIZE + 1 + TPM_HASH_SIZE) no ObjKey k keySize
              (sha1 ((slice buf 6 4 ++ ToTpmUint32 command)
                       ++ concat (map (selected buf) rs)))
              eq_refl ltac:(lia) Hbig Hno Hk)
    as [off [len [Hres Hout]]].
  exists off, len. split; [|exact Hout].
  apply result_bind_fault. exact Hres.
Qed.

Lemma CheckHMAC_size_beyond_response_witness :
  exists off len,
    In (ObjResponse, off, len)
       (addressed
          (TSS_CheckHMAC (H := Tpm12.env) (Some Tpm12.resp1_long)
             Tpm12.command (Some Tpm12.nonceOdd) (Some Tpm12.key) 20
             None 0 Tpm12.args1))
    /\ Zlength' Tpm12.resp1_long < off + len.
Proof.
  exact (@CheckHMAC_size_beyond_response Tpm12.env Tpm12_env_ok
           Tpm12.resp1_long Tpm12.nonceOdd Tpm12.key Tpm12.command 20
           None 0 [(4, 10); (8, 20)] []
           ltac:(concrete_side) ltac:(concrete_side)
           ltac:(concrete_side) ltac:(concrete_side)
           ltac:(concrete_side) ltac:(concrete_side)
           ltac:(concrete_side) ltac:(concrete_side)).
Defined.

(** ** Which bytes of the response the verification covers *)

Lemma slice_slice (b : bytes) (a n c m : Z) :
  0 <= a -> 0 <= c -> 0 <= m -> c + m <= n ->
  slice (slice b a n) c m = slice b (a + c) m.
Proof.
  intros Ha Hc Hm Hn. unfold slice.
  rewrite skipn_firstn_comm, firstn_firstn, skipn_skipn.
  replace (Init.Nat.min (Z.to_nat m) (Z.to_nat n - Z.to_nat c))
    with (Z.to_nat m) by lia.
  replace (Z.to_nat c + Z.to_nat a)%nat with (Z.to_nat (a + c)) by lia.
  reflexivity.
Qed.

Lemma slice_agree (b b' : bytes) (a n c m : Z) :
  slice b' a n = slice b a n ->
  0 <= a -> 0 <= c -> 0 <= m -> c + m <= n ->
  slice b' (a + c) m = slice b (a + c) m.
Proof.
  intros Heq Ha Hc Hm Hn.
  rewrite <- (slice_slice b a n c m), <- (slice_slice b' a n c m) by lia.
  now rewrite Heq.
Qed.

(** X10.  On an AUTH1 response the verification covers the ten header
    bytes, the selected ranges and the trailer, and nothing else: a second
    response of the same length that agrees with the first on those bytes
    gives the same run, with the same result, however the two differ
    elsewhere. *)
Theorem CheckHMAC_covers_selected_bytes_only {E : TlclEnv}
    (Hok : TlclEnvOk E) (buf buf' no k : bytes) (command keySize : Z)
    (key2 : ptr) (keySize2 : Z) (rs : list (Z * Z)) (rest : va_list) :
  let block := TPM_NONCE_SIZE + 1 + TPM_HASH_SIZE in
  10 <= Zlength' buf ->
  tag_of buf = TPM_TAG_RSP_AUTH1_COMMAND ->
  Forall u32_pair rs -> Forall (range_inside buf) rs ->
  block <= size_of buf <= Zlength' buf ->
  TPM_NONCE_SIZE <= Zlength' no ->
  0 <= keySize <= Zlength' k ->
  Zlength' buf' = Zlength' buf ->
  slice buf' 0 10 = slice buf 0 10 ->
  Forall (fun r => selected buf' r = selected buf r) rs ->
  slice buf' (size_of buf - block) block
  = slice buf (size_of buf - block) block ->
  TSS_CheckHMAC (Some buf') command (Some no) (Some k) keySize key2
                keySize2 (va_ranges rs ++ VaU32 0 :: rest)
  = TSS_CheckHMAC (Some buf) command (Some no) (Some k) keySize key2
                  keySize2 (va_ranges rs ++ VaU32 0 :: rest).
Proof.
  intros block Hlen Htag Hu Hin Hsz Hno Hk Hlen' Hhead Hsel Htrail.
  pose proof (hash_size_nonneg E Hok) as HH.
  pose proof (nonce_size_nonneg E Hok) as HN.
  assert (Htag' : tag_of buf' = tag_of buf).
  { unfold tag_of. f_equal.
    apply (slice_agree buf buf' 0 10 0 2 Hhead); lia. }
  assert (Hsize' : size_of buf' = size_of buf).
  { unfold size_of. f_equal.
    apply (slice_agree buf buf' 0 10 2 4 Hhead); lia. }
  assert (Hrc : slice buf' 6 4 = slice buf 6 4)
    by (apply (slice_agree buf buf' 0 10 6 4 Hhead); lia).
  assert (Hin' : Forall (range_inside buf') rs).
  { unfold range_inside. rewrite Hlen'. exact Hin. }
  assert (Hmap : map (selected buf') rs = map (selected buf) rs).
  { clear - Hsel. induction Hsel as [|r rs Hr _ IH]; [reflexivity|].
    cbn [map]. now rewrite Hr, IH. }
  rewrite (CheckHMAC_auth1_run Hok buf' no k command keySize key2 keySize2
             rs rest) by (rewrite ?Htag', ?Hsize', ?Hlen'; assumption).
  rewrite (CheckHMAC_auth1_run Hok buf no k command keySize key2 keySize2
             rs rest) by assumption.
  rewrite Hsize'. fold block.
  set (start := size_of buf - block) in *.
  assert (Heven : slice buf' start TPM_NONCE_SIZE
                  = slice buf start TPM_NONCE_SIZE).
  { pose proof (slice_agree buf buf' start block 0 TPM_NONCE_SIZE Htrail)
      as Ha.
    rewrite Z.add_0_r in Ha. apply Ha; unfold start, block in *; lia. }
  assert (Hflag : slice buf' (start + TPM_NONCE_SIZE) 1
                  = slice buf (start + TPM_NONCE_SIZE) 1)
    by (apply (slice_agree buf buf' start block TPM_NONCE_SIZE 1 Htrail);
        unfold start, block in *; lia).
  assert (Hfield : slice buf' (start + TPM_NONCE_SIZE + 1) TPM_HASH_SIZE
                   = slice buf (start + TPM_NONCE_SIZE + 1) TPM_HASH_SIZE).
  { rewrite <- (Z.add_assoc start TPM_NONCE_SIZE 1).
    apply (slice_agree buf buf' start block (TPM_NONCE_SIZE + 1)
             TPM_HASH_SIZE Htrail); unfold start, block in *; lia. }
  unfold block_hmac, block_field, response_digest.
  now rewrite Hrc, Hmap, Heven, Hflag, Hfield.
Qed.

Lemma CheckHMAC_covers_selected_bytes_only_witness :
  Tpm12.resp1_other_body <> Tpm12.resp1
  /\ TSS_CheckHMAC (H := Tpm12.env) (Some Tpm12.resp1_other_body)
       Tpm12.command (Some Tpm12.nonceOdd) (Some Tpm12.key) 20 None 0
       Tpm12.args1
     = TSS_CheckHMAC (H := Tpm12.env) (Some Tpm12.resp1) Tpm12.command
         (Some Tpm12.nonceOdd) (Some Tpm12.key) 20 None 0 Tpm12.args1.
Proof.
  split; [closed_fact|].
  exact (@CheckHMAC_covers_selected_bytes_only Tpm12.env Tpm12_env_ok
           Tpm12.resp1 Tpm12.resp1_other_body Tpm12.nonceOdd Tpm12.key
           Tpm12.command 20 None 0 [(4, 10); (8, 20)] []
           ltac:(concrete_side) ltac:(concrete_side)
           ltac:(concrete_side) ltac:(concrete_side)
           ltac:(concrete_side) ltac:(concrete_side)
           ltac:(concrete_side) ltac:(concrete_side)
           ltac:(concrete_side) ltac:(concrete_side)
           ltac:(concrete_side)).
Defined.

(** ** The two functions on an AUTH2 response *)

(** X11.  The two functions agree on an AUTH2 response.  Call TSS_AuthHMAC
    once per block, with that block's even nonce as [nonce1], the caller's
    odd nonce as [nonce2], that block's continue flag, the block's key
    ([key] for the earlier block, [key2] for the later one) and, both
    times, the return code, ordinal and selected ranges as data:
    TSS_CheckHMAC returns TPM_SUCCESS exactly when each block's HMAC field
    holds the digest the corresponding call stored. *)
Theorem AuthHMAC_matches_CheckHMAC_auth2 {E : TlclEnv} (Hok : TlclEnvOk E)
    (buf no k k2 dg : bytes) (command keySize keySize2 : Z)
    (authBool1 authBool2 : uint8) (rs : list (Z * Z))
    (rest rest1 rest2 : va_list) :
  let block := TPM_NONCE_SIZE + 1 + TPM_HASH_SIZE in
  let start1 := size_of buf - 2 * block in
  let start2 := size_of buf - block in
  10 <= Zlength' buf ->
  tag_of buf = TPM_TAG_RSP_AUTH2_COMMAND ->
  Forall u32_pair rs -> Forall (range_inside buf) rs ->
  0 <= start1 -> size_of buf <= Zlength' buf ->
  TPM_NONCE_SIZE <= Zlength' no ->
  0 <= keySize <= Zlength' k ->
  0 <= keySize2 <= Zlength' k2 ->
  TPM_HASH_SIZE <= Zlength' dg ->
  slice buf (start1 + TPM_NONCE_SIZE) 1 = [authBool1] ->
  slice buf (start2 + TPM_NONCE_SIZE) 1 = [authBool2] ->
  let data :=
    va_entries (response_entries buf command rs) in
  exists authHmac1 authHmac2,
    result (TSS_AuthHMAC (Some dg) (Some k) keySize (ptr_at buf start1)
              (Some no) authBool1 (data ++ VaU32 0 :: rest1))
    = Done (TPM_SUCCESS,
            Some (authHmac1 ++ skipn (Z.to_nat TPM_HASH_SIZE) dg))
    /\ result (TSS_AuthHMAC (Some dg) (Some k2) keySize2
                 (ptr_at buf start2) (Some no) authBool2
                 (data ++ VaU32 0 :: rest2))
       = Done (TPM_SUCCESS,
               Some (authHmac2 ++ skipn (Z.to_nat TPM_HASH_SIZE) dg))
    /\ (result (TSS_CheckHMAC (Some buf) command (Some no) (Some k) keySize
                  (Some k2) keySize2 (va_ranges rs ++ VaU32 0 :: rest))
        = Done TPM_SUCCESS
        <-> slice buf (start1 + TPM_NONCE_SIZE + 1) TPM_HASH_SIZE
            = authHmac1
            /\ slice buf (start2 + TPM_NONCE_SIZE + 1) TPM_HASH_SIZE
               = authHmac2).
Proof.
  intros block start1 start2 Hlen Htag Hu Hin H0 Hsz Hno Hk Hk2 Hdg
         Hflag1 Hflag2 data.
  pose proof (hash_size_nonneg E Hok) as HH.
  pose proof (nonce_size_nonneg E Hok) as HN.
  set (pd := response_digest buf command rs).
  exists (block_hmac buf start1 no k keySize pd),
         (block_hmac buf start2 no k2 keySize2 pd).
  assert (Hn1 : TPM_NONCE_SIZE <= Zlength' (skipn (Z.to_nat start1) buf))
    by (rewrite Zlength_skipn; unfold start1, block in *; lia).
  assert (Hn2 : TPM_NONCE_SIZE <= Zlength' (skipn (Z.to_nat start2) buf))
    by (rewrite Zlength_skipn; unfold start1, start2, block in *; lia).
  pose proof (response_entries_ok buf command rs Hlen Hu Hin) as Hes.
  split; [|split].
  - refine (eq_trans
              (f_equal snd
                 (AuthHMAC_run Hok dg k (skipn (Z.to_nat start1) buf) no
                    keySize authBool1 (response_entries buf command rs)
                    rest1 Hes Hk Hn1 Hno Hdg)) _).
    cbn [snd].
    rewrite response_entries_bytes, slice_skipn, <- Hflag1.
    reflexivity.
  - refine (eq_trans
              (f_equal snd
                 (AuthHMAC_run Hok dg k2 (skipn (Z.to_nat start2) buf) no
                    keySize2 authBool2 (response_entries buf command rs)
                    rest2 Hes Hk2 Hn2 Hno Hdg)) _).
    cbn [snd].
    rewrite response_entries_bytes, slice_skipn, <- Hflag2.
    reflexivity.
  - rewrite (CheckHMAC_auth2_run Hok buf no k k2 command keySize keySize2
               rs rest)
      by (assumption || (unfold start1, block in *; lia)).
    unfold result. cbn [snd].
    fold block. fold start1. fold start2. fold pd.
    unfold block_field.
    pose proof (bytes_eqb_eq (block_hmac buf start1 no k keySize pd)
                  (slice buf (start1 + TPM_NONCE_SIZE + 1) TPM_HASH_SIZE))
      as H1.
    pose proof (bytes_eqb_eq (block_hmac buf start2 no k2 keySize2 pd)
                  (slice buf (start2 + TPM_NONCE_SIZE + 1) TPM_HASH_SIZE))
      as H2.
    destruct (bytes_eqb (block_hmac buf start1 no k keySize pd) _);
      destruct (bytes_eqb (block_hmac buf start2 no k2 keySize2 pd) _);
      destruct H1 as [H1a H1b]; destruct H2 as [H2a H2b];
      split; try discriminate; try reflexivity.
    + intros _. split; symmetry; [now apply H1a | now apply H2a].
    + intros [_ Hb]. symmetry in Hb. apply H2b in Hb. discriminate.
    + intros [Ha _]. symmetry in Ha. apply H1b in Ha. discriminate.
    + intros [Ha _]. symmetry in Ha. apply H1b in Ha. discriminate.
Qed.

Lemma AuthHMAC_matches_CheckHMAC_auth2_witness :
  exists authHmac1 authHmac2,
    result (TSS_AuthHMAC (H := Tpm12.env) (Some Tpm12.digest0)
              (Some Tpm12.key) 20 (ptr_at Tpm12.resp2 18)
              (Some Tpm12.nonceOdd) Byte.x01
              (va_entries
                 (response_entries Tpm12.resp2 Tpm12.command
                                   [(4, 10); (4, 14)])
                 ++ [VaU32 0]))
    = Done (TPM_SUCCESS, Some (authHmac1 ++ skipn 20 Tpm12.digest0))
    /\ result (TSS_AuthHMAC (H := Tpm12.env) (Some Tpm12.digest0)
                 (Some Tpm12.key2) 20 (ptr_at Tpm12.resp2 59)
                 (Some Tpm12.nonceOdd) Byte.x01
                 (va_entries
                    (response_entries Tpm12.resp2 Tpm12.command
                                      [(4, 10); (4, 14)])
                    ++ [VaU32 0]))
       = Done (TPM_SUCCESS, Some (authHmac2 ++ skipn 20 Tpm12.digest0))
    /\ (result (TSS_CheckHMAC (H := Tpm12.env) (Some Tpm12.resp2)
                  Tpm12.command (Some Tpm12.nonceOdd) (Some Tpm12.key) 20
                  (Some Tpm12.key2) 20 Tpm12.args2)
        = Done TPM_SUCCESS
        <-> slice Tpm12.resp2 39 20 = authHmac1
            /\ slice Tpm12.resp2 80 20 = authHmac2).
Proof.
  exact (@AuthHMAC_matches_CheckHMAC_auth2 Tpm12.env Tpm12_env_ok
           Tpm12.resp2 Tpm12.nonceOdd Tpm12.key Tpm12.key2 Tpm12.digest0
           Tpm12.command 20 20 Byte.x01 Byte.x01 [(4, 10); (4, 14)]
           [] [] []
           ltac:(concrete_side) ltac:(concrete_side)
           ltac:(concrete_side) ltac:(concrete_side)
           ltac:(concrete_side) ltac:(concrete_side)
           ltac:(concrete_side) ltac:(concrete_side)
           ltac:(concrete_side) ltac:(concrete_side)
           ltac:(closed_fact) ltac:(closed_fact)).
Defined.
